(** * go-binpack: a shallow embedding of [pack.go] and its properties

    The Go type [int] is the 64-bit two's-complement integer (the source
    assigns [math.MaxInt64] to an [int]); it is modelled as [Z] with the
    wrap-around of every arithmetic operation written out.  The two
    [map[int]bool] values of [getCandidatePositions] are finite sets
    ([gset Z]); the order in which Go ranges over a map is unspecified, so it
    is a parameter of the model.  [sort.Slice] belongs to the Go standard
    library and is a parameter too, with its contract as hypotheses.  The
    calls of [Place] are collected in the order in which they are made. *)

From Stdlib Require Import ZArith Lia List.
From stdpp Require Import base tactics option list sorting gmap.

Local Open Scope Z_scope.

(** ** Machine integers *)

Module Int64.

Definition modulus : Z := 2 ^ 64.
Definition half : Z := 2 ^ 63.

(** [math.MaxInt64] *)
Definition MaxInt64 : Z := 2 ^ 63 - 1.
Definition MinInt64 : Z := - 2 ^ 63.

(** The value of a mathematical integer once stored in an [int]. *)
Definition wrap (z : Z) : Z := (z + half) mod modulus - half.

Definition add (a b : Z) : Z := wrap (a + b).
Definition sub (a b : Z) : Z := wrap (a - b).
Definition mul (a b : Z) : Z := wrap (a * b).

(** Go's [/] on integers truncates toward zero. *)
Definition div (a b : Z) : Z := wrap (Z.quot a b).

Definition inRange (z : Z) : Prop := MinInt64 <= z <= MaxInt64.

End Int64.

Abbreviation add64 := Int64.add.
Abbreviation sub64 := Int64.sub.
Abbreviation mul64 := Int64.mul.
Abbreviation div64 := Int64.div.
Abbreviation MaxInt64 := Int64.MaxInt64.

(** ** Data model *)

(** [type Rectangle struct { Width, Height int }] *)
Record Rectangle : Type := mkRectangle { Width : Z; Height : Z }.

(** [func (r Rectangle) Area() int] *)
Definition Area (r : Rectangle) : Z := mul64 (Width r) (Height r).

(** The reading half of [Packable]: [Len()] and [Rectangle(n)].  The
    writing half, [Place(n, x, y)], is the list of calls that [Pack]
    returns. *)
Record Packable : Type := mkPackable { Len : Z; RectangleAt : Z -> Rectangle }.

(** One call [Place(n, x, y)]. *)
Record PlaceCall : Type := mkPlace { placeN : Z; placeX : Z; placeY : Z }.

(** [type placement struct { position, x, y, width, height int }] *)
Record placement : Type :=
  mkPlacement { position : Z; x : Z; y : Z; width : Z; height : Z }.

(** [type bounds struct { minX, minY, maxX, maxY int }] *)
Record bounds : Type := mkBounds { minX : Z; minY : Z; maxX : Z; maxY : Z }.

(** ** Geometric helpers *)

(** [expandBoundsForPlacement]: four guarded assignments to [b]. *)
Definition expandBoundsForPlacement (r : placement) (b : bounds) : bounds :=
  let b := if x r <? minX b
           then mkBounds (x r) (minY b) (maxX b) (maxY b) else b in
  let b := if y r <? minY b
           then mkBounds (minX b) (y r) (maxX b) (maxY b) else b in
  let b := if maxX b <? add64 (x r) (width r)
           then mkBounds (minX b) (minY b) (add64 (x r) (width r)) (maxY b) else b in
  let b := if maxY b <? add64 (y r) (height r)
           then mkBounds (minX b) (minY b) (maxX b) (add64 (y r) (height r)) else b in
  b.

(** The body of the loop of [computeBounds], which the source writes out
    again instead of calling [expandBoundsForPlacement]. *)
Definition computeBounds_body (b : bounds) (r : placement) : bounds :=
  let b := if x r <? minX b
           then mkBounds (x r) (minY b) (maxX b) (maxY b) else b in
  let b := if y r <? minY b
           then mkBounds (minX b) (y r) (maxX b) (maxY b) else b in
  let b := if maxX b <? add64 (x r) (width r)
           then mkBounds (minX b) (minY b) (add64 (x r) (width r)) (maxY b) else b in
  let b := if maxY b <? add64 (y r) (height r)
           then mkBounds (minX b) (minY b) (maxX b) (add64 (y r) (height r)) else b in
  b.

(** [computeBounds]: reading [placements[0]] of an empty slice panics
    ([None]). *)
Definition computeBounds (placements : list placement) : option bounds :=
  match placements with
  | [] => None
  | p0 :: _ =>
      Some (foldl computeBounds_body
              (mkBounds (x p0) (y p0)
                 (add64 (x p0) (width p0)) (add64 (y p0) (height p0)))
              placements)
  end.

(** [doRectanglesIntersect] *)
Definition doRectanglesIntersect (a b : placement) : bool :=
  if (add64 (x b) (width b) <=? x a) || (add64 (x a) (width a) <=? x b)
  then false
  else if (add64 (y b) (height b) <=? y a) || (add64 (y a) (height a) <=? y b)
  then false
  else true.

(** [hasIntersection]: the first intersecting placement ends the loop. *)
Fixpoint hasIntersection (candidate : placement) (placements : list placement) : bool :=
  match placements with
  | [] => false
  | p :: rest =>
      if doRectanglesIntersect candidate p then true
      else hasIntersection candidate rest
  end.

(** ** Candidate coordinates *)

(** The key sets of the maps [x] and [y] after the first loop of
    [getCandidatePositions]. *)
Definition xKeys (rects : list placement) : gset Z :=
  foldl (fun s r => {[ add64 (x r) (width r) ]} ∪ ({[ x r ]} ∪ s)) ∅ rects.

Definition yKeys (rects : list placement) : gset Z :=
  foldl (fun s r => {[ add64 (y r) (height r) ]} ∪ ({[ y r ]} ∪ s)) ∅ rects.

(** The order in which one [for k := range m] visits the keys of a map.
    Go leaves it unspecified and varies it from one loop to the next, so
    the enumeration depends on the loop as well as on the key set: the
    [nat] is the number of rectangles already placed, which is different
    at every call of [getCandidatePositions] within one run of [Pack]. *)
Definition MapOrder : Type := nat -> gset Z -> list Z.

(** A legal enumeration visits every key exactly once. *)
Definition validOrder (range : MapOrder) : Prop :=
  forall n s, range n s ≡ₚ elements s.

(** ** Scoring of one candidate *)

(** The mutable locals of [findBestPlacement]. *)
Record best : Type :=
  mkBest { bestX : Z; bestY : Z; bestArea : Z; bestCenterDistance : Z; found : bool }.

(** [var bestX, bestY int; bestArea = math.MaxInt64; ...; found = false] *)
Definition best_init : best := mkBest 0 0 MaxInt64 MaxInt64 false.

(** The candidate placement built at the top of the inner loop (its
    [position] field is left at its zero value). *)
Definition candidateAt (r : Rectangle) (cx cy : Z) : placement :=
  mkPlacement 0 cx cy (Width r) (Height r).

(** [candidateArea] as computed inline. *)
Definition candidateArea (b : bounds) (candidate : placement) : Z :=
  let bb := expandBoundsForPlacement candidate b in
  mul64 (sub64 (maxX bb) (minX bb)) (sub64 (maxY bb) (minY bb)).

(** [centerDistance] as computed inline. *)
Definition centerDistance (b : bounds) (candidate : placement) : Z :=
  let bb := expandBoundsForPlacement candidate b in
  let bbCenterX := add64 (minX bb) (div64 (sub64 (maxX bb) (minX bb)) 2) in
  let bbCenterY := add64 (minY bb) (div64 (sub64 (maxY bb) (minY bb)) 2) in
  let candidateCenterX := add64 (x candidate) (div64 (width candidate) 2) in
  let candidateCenterY := add64 (y candidate) (div64 (height candidate) 2) in
  let dx := sub64 candidateCenterX bbCenterX in
  let dy := sub64 candidateCenterY bbCenterY in
  add64 (mul64 dx dx) (mul64 dy dy).

(** The condition of the final [if] of the inner loop: the candidate is
    strictly better than the best so far. *)
Definition improves (area dist : Z) (st : best) : bool :=
  (area <? bestArea st) || ((area =? bestArea st) && (dist <? bestCenterDistance st)).

(** One turn of the inner loop of [findBestPlacement]. *)
Definition consider (b : bounds) (r : Rectangle) (placements : list placement)
    (cx : Z) (st : best) (cy : Z) : best :=
  let candidate := candidateAt r cx cy in
  if hasIntersection candidate placements then st
  else
    let area := candidateArea b candidate in
    let dist := centerDistance b candidate in
    if improves area dist st
    then mkBest (x candidate) (y candidate) area dist true
    else st.

(** [findBestPlacement]: the outer loop over [xCandidates], the inner over
    [yCandidates]; the result is [(bestX, bestY, found)]. *)
Definition findBestPlacement_loop (xCandidates yCandidates : list Z) (b : bounds)
    (r : Rectangle) (placements : list placement) : best :=
  foldl (fun st cx => foldl (consider b r placements cx) st yCandidates)
        best_init xCandidates.

Definition findBestPlacement (xCandidates yCandidates : list Z) (b : bounds)
    (r : Rectangle) (placements : list placement) : Z * Z * bool :=
  let st := findBestPlacement_loop xCandidates yCandidates b r placements in
  (bestX st, bestY st, found st).

(** The part of the body of the loop of [Pack] between the call of
    [findBestPlacement] and the [append]: the position chosen for the
    rectangle, with the fallback to [(bounds.maxX, bounds.minY)]. *)
Definition choosePosition (xCandidates yCandidates : list Z) (b : bounds)
    (r : Rectangle) (placements : list placement) : Z * Z :=
  let '(bx, by_, candidateFound) :=
    findBestPlacement xCandidates yCandidates b r placements in
  if candidateFound then (bx, by_) else (maxX b, minY b).

(** ** Pack *)

Section Pack.

(** [sort.Slice], on the elements of the slice: [less a b] compares two
    elements.  *)
Variable sortSlice : (Z -> Z -> bool) -> list Z -> list Z.

(** The enumeration orders of the maps [x] and [y]. *)
Variables rangeX rangeY : MapOrder.

(** [getCandidatePositions] *)
Definition getCandidatePositions (rects : list placement) : list Z * list Z :=
  (rangeX (length rects) (xKeys rects), rangeY (length rects) (yKeys rects)).

(** The comparison handed to [sort.Slice]:
    [p.Rectangle(a).Area() > p.Rectangle(b).Area()]. *)
Definition areaGreater (p : Packable) (a b : Z) : bool :=
  Area (RectangleAt p b) <? Area (RectangleAt p a).

(** [positions[i] = i] for [i] in [0 .. count-1]. *)
Definition initialPositions (count : Z) : list Z :=
  map Z.of_nat (seq 0 (Z.to_nat count)).

(** One turn of the main loop of [Pack]; [None] is the panic of
    [computeBounds]. *)
Definition Pack_step (p : Packable) (placements : list placement) (pos : Z)
    : option (list placement) :=
  let rectangle := RectangleAt p pos in
  match placements with
  | [] => Some [mkPlacement pos 0 0 (Width rectangle) (Height rectangle)]
  | _ :: _ =>
      let '(xCandidates, yCandidates) := getCandidatePositions placements in
      b ← computeBounds placements;
      let '(bestX, bestY) :=
        choosePosition xCandidates yCandidates b rectangle placements in
      Some (placements ++
              [mkPlacement pos bestX bestY (Width rectangle) (Height rectangle)])
  end.

(** The main loop over the sorted positions. *)
Fixpoint Pack_loop (p : Packable) (placements : list placement) (positions : list Z)
    : option (list placement) :=
  match positions with
  | [] => Some placements
  | pos :: rest =>
      placements' ← Pack_step p placements pos;
      Pack_loop p placements' rest
  end.

(** The slice [placements] when the main loop ends. *)
Definition layout (p : Packable) : option (list placement) :=
  Pack_loop p [] (sortSlice (areaGreater p) (initialPositions (Len p))).

(** The calls of [Place] of the last loop. *)
Definition placeAll (b : bounds) (placements : list placement) : list PlaceCall :=
  map (fun pl => mkPlace (position pl) (sub64 (x pl) (minX b)) (sub64 (y pl) (minY b)))
      placements.

(** [Pack]: the returned pair and the calls of [Place], in order.  A
    negative [Len()] makes [make([]int, count)] panic. *)
Definition Pack (p : Packable) : option (Z * Z * list PlaceCall) :=
  let count := Len p in
  if count =? 0 then Some (0, 0, [])
  else if count <? 0 then None
  else
    placements ← layout p;
    b ← computeBounds placements;
    Some (sub64 (maxX b) (minX b), sub64 (maxY b) (minY b), placeAll b placements).

End Pack.

(** ** A sort and two enumeration orders to run the model with *)

(** Insertion sort as [sort.Slice] runs it on slices of at most twelve
    elements: each element in turn moves left while it is [less] than its
    left neighbour.  [sinkLeft] works on the part already sorted, last
    element first. *)
Fixpoint sinkLeft (less : Z -> Z -> bool) (a : Z) (sortedRev : list Z) : list Z :=
  match sortedRev with
  | [] => [a]
  | b :: rest => if less a b then b :: sinkLeft less a rest else a :: b :: rest
  end.

Definition insertionSort (less : Z -> Z -> bool) (l : list Z) : list Z :=
  reverse (foldl (fun sortedRev a => sinkLeft less a sortedRev) [] l).

(** Keys visited in the order of [elements], and in the opposite order. *)
Definition rangeForward : MapOrder := fun _ s => elements s.
Definition rangeBackward : MapOrder := fun _ s => reverse (elements s).

(** A collection held in a slice, as the test suite's [testPackable]. *)
Definition packableOf (rects : list Rectangle) : Packable :=
  mkPackable (Z.of_nat (length rects))
    (fun n => nth (Z.to_nat n) rects (mkRectangle 0 0)).

(** ** Notions in which the properties are stated *)

(** Two half-open intervals [[lo, lo + len)] have a point in common. *)
Definition sharePoint (lo1 len1 lo2 len2 : Z) : Prop :=
  exists pt, (lo1 <= pt < lo1 + len1) /\ (lo2 <= pt < lo2 + len2).

(** The half-open rectangles of two placements overlap: their x-intervals
    share a point and their y-intervals share a point. *)
Definition overlapHalfOpen (a b : placement) : Prop :=
  sharePoint (x a) (width a) (x b) (width b) /\
  sharePoint (y a) (height a) (y b) (height b).

(** The candidates in the order in which the two nested loops of
    [findBestPlacement] meet them. *)
Definition candidatePairs (xCandidates yCandidates : list Z) : list (Z * Z) :=
  flat_map (fun cx => map (fun cy => (cx, cy)) yCandidates) xCandidates.

(** A candidate survives when it intersects no placement. *)
Definition survives (r : Rectangle) (placements : list placement) (c : Z * Z) : bool :=
  negb (hasIntersection (candidateAt r c.1 c.2) placements).

Definition survivors (r : Rectangle) (placements : list placement)
    (cands : list (Z * Z)) : list (Z * Z) :=
  List.filter (survives r placements) cands.

(** The score of a candidate: the area of the bounding box it would give,
    then the squared distance of the centres, both as the source computes
    them. *)
Definition score (b : bounds) (r : Rectangle) (c : Z * Z) : Z * Z :=
  (candidateArea b (candidateAt r c.1 c.2), centerDistance b (candidateAt r c.1 c.2)).

(** Smaller area first, then smaller distance. *)
Definition scoreLt (s t : Z * Z) : Prop := s.1 < t.1 \/ (s.1 = t.1 /\ s.2 < t.2).
Definition scoreLe (s t : Z * Z) : Prop := s.1 < t.1 \/ (s.1 = t.1 /\ s.2 <= t.2).

(** [c] is the first of [cands] with the least score: everything before it
    scores strictly more, everything after it scores at least as much. *)
Definition firstBest (b : bounds) (r : Rectangle) (cands : list (Z * Z)) (c : Z * Z) : Prop :=
  exists before after,
    cands = before ++ c :: after /\
    Forall (fun c' => scoreLt (score b r c) (score b r c')) before /\
    Forall (fun c' => scoreLe (score b r c) (score b r c')) after.

(** [b] is the tight bounding box of [placements], with the right and
    bottom edges as the source computes them. *)
Record tightBounds (placements : list placement) (b : bounds) : Prop := mkTight {
  tight_minX : forall q, q ∈ placements -> minX b <= x q;
  tight_minY : forall q, q ∈ placements -> minY b <= y q;
  tight_maxX : forall q, q ∈ placements -> add64 (x q) (width q) <= maxX b;
  tight_maxY : forall q, q ∈ placements -> add64 (y q) (height q) <= maxY b;
  tight_minX_at : exists q, q ∈ placements /\ minX b = x q;
  tight_minY_at : exists q, q ∈ placements /\ minY b = y q;
  tight_maxX_at : exists q, q ∈ placements /\ maxX b = add64 (x q) (width q);
  tight_maxY_at : exists q, q ∈ placements /\ maxY b = add64 (y q) (height q)
}.

(** The right and bottom edges of a placement are representable: the sums
    [x + width] and [y + height] do not wrap. *)
Definition edgesFit (q : placement) : Prop :=
  Int64.inRange (x q + width q) /\ Int64.inRange (y q + height q).

(** One turn of the inner loop of [findBestPlacement] on a candidate pair. *)
Definition considerPair (b : bounds) (r : Rectangle) (placements : list placement)
    (st : best) (c : Z * Z) : best :=
  consider b r placements c.1 st c.2.

(** What the locals of [findBestPlacement] hold once the candidates [seen]
    have been met: nothing as long as no candidate survived, and else the
    first of the survivors with the least score, together with its score. *)
Definition bestInv (b : bounds) (r : Rectangle) (placements : list placement)
    (seen : list (Z * Z)) (st : best) : Prop :=
  if found st
  then firstBest b r (survivors r placements seen) (bestX st, bestY st) /\
       (bestArea st, bestCenterDistance st) = score b r (bestX st, bestY st)
  else st = best_init /\ survivors r placements seen = [].

(** *** The contract of [sort.Slice] *)

(** [less] is a strict weak ordering, which is what [sort.Slice] asks of
    its comparison. *)
Record strictWeakOrder (less : Z -> Z -> bool) : Prop := mkSWO {
  swo_irrefl : forall a, less a a = false;
  swo_trans : forall a b c, less a b = true -> less b c = true -> less a c = true;
  swo_incomp : forall a b c, less a b = false -> less b c = false -> less a c = false
}.

(** No element of [l] is [less] than an element before it. *)
Definition sortedBy (less : Z -> Z -> bool) (l : list Z) : Prop :=
  forall i j a b, (i < j)%nat -> l !! i = Some a -> l !! j = Some b -> less b a = false.

(** The sort rearranges the slice. *)
Definition sortPermutes (sortSlice : (Z -> Z -> bool) -> list Z -> list Z) : Prop :=
  forall less l, sortSlice less l ≡ₚ l.

(** The sort leaves the slice in order. *)
Definition sortSorts (sortSlice : (Z -> Z -> bool) -> list Z -> list Z) : Prop :=
  forall less l, strictWeakOrder less -> sortedBy less (sortSlice less l).

(** *** The caller's side *)

(** The storage of the caller after the calls of [Place], as the
    [Locations] of the example and the [placements] of the test suite:
    a later call for an index replaces an earlier one. *)
Definition Locations (calls : list PlaceCall) : gmap Z (Z * Z) :=
  foldl (fun m c => <[placeN c := (placeX c, placeY c)]> m) ∅ calls.

(** Rectangle [n] of the collection at the recorded position [xy]. *)
Definition placedAt (p : Packable) (n : Z) (xy : Z * Z) : placement :=
  mkPlacement n xy.1 xy.2 (Width (RectangleAt p n)) (Height (RectangleAt p n)).

Definition sumZ (l : list Z) : Z := foldr Z.add 0 l.
Arguments sumZ : simpl never.

Definition totalWidth (p : Packable) : Z :=
  sumZ (map (fun n => Width (RectangleAt p n)) (initialPositions (Len p))).

Definition totalHeight (p : Packable) : Z :=
  sumZ (map (fun n => Height (RectangleAt p n)) (initialPositions (Len p))).

(** All dimensions are non-negative. *)
Definition nonNegative (p : Packable) : Prop :=
  forall n, 0 <= n < Len p ->
    0 <= Width (RectangleAt p n) /\ 0 <= Height (RectangleAt p n).

(** The widths laid side by side, and the heights stacked, stay within
    the range of [int]. *)
Definition fitsInt64 (p : Packable) : Prop :=
  nonNegative p /\ totalWidth p <= MaxInt64 /\ totalHeight p <= MaxInt64.

(** The largest and the least element of a non-empty list ([0] for the
    empty list). *)
Definition maxZ (l : list Z) : Z :=
  match l with [] => 0 | a :: rest => foldl Z.max a rest end.
Definition minZ (l : list Z) : Z :=
  match l with [] => 0 | a :: rest => foldl Z.min a rest end.
Arguments maxZ : simpl never.
Arguments minZ : simpl never.

(** The tight bounding box of the recorded placements: the width is the
    largest [x_i + width_i] minus the least [x_i], and the height
    likewise. *)
Definition rightEdges (p : Packable) (calls : list PlaceCall) : list Z :=
  map (fun c => placeX c + Width (RectangleAt p (placeN c))) calls.
Definition bottomEdges (p : Packable) (calls : list PlaceCall) : list Z :=
  map (fun c => placeY c + Height (RectangleAt p (placeN c))) calls.
Definition tightWidth (p : Packable) (calls : list PlaceCall) : Z :=
  maxZ (rightEdges p calls) - minZ (map placeX calls).
Definition tightHeight (p : Packable) (calls : list PlaceCall) : Z :=
  maxZ (bottomEdges p calls) - minZ (map placeY calls).

(** *** Invariants of the main loop *)

(** No two placements of the slice intersect. *)
Definition noOverlap (placements : list placement) : Prop :=
  forall i j a b, i <> j -> placements !! i = Some a -> placements !! j = Some b ->
    doRectanglesIntersect a b = false.

(** Every placement carries the dimensions of its rectangle, no two
    intersect, and the first one is at the origin. *)
Record wellPlaced (p : Packable) (placements : list placement) : Prop := mkWell {
  well_dims : forall q, q ∈ placements ->
      width q = Width (RectangleAt p (position q)) /\
      height q = Height (RectangleAt p (position q));
  well_disjoint : noOverlap placements;
  well_origin : forall q, head placements = Some q -> x q = 0 /\ y q = 0
}.

(** Every placement lies between the origin and the sum of the widths,
    and the sum of the heights, placed so far, and these sums are
    representable. *)
Record withinBudget (placements : list placement) : Prop := mkBudget {
  budget_each : forall q, q ∈ placements ->
      0 <= x q /\ 0 <= y q /\ 0 <= width q /\ 0 <= height q /\
      x q + width q <= sumZ (map width placements) /\
      y q + height q <= sumZ (map height placements);
  budget_width : sumZ (map width placements) <= MaxInt64;
  budget_height : sumZ (map height placements) <= MaxInt64
}.

(** Every placement of the slice is the empty rectangle at the origin. *)
Definition allAtOrigin (placements : list placement) : Prop :=
  forall q, q ∈ placements -> x q = 0 /\ y q = 0 /\ width q = 0 /\ height q = 0.

(** *** Inputs used in the examples *)

(** Two equal squares. *)
Definition twoSquares : Packable := packableOf [mkRectangle 10 10; mkRectangle 10 10].

(** Five rectangles of the test suite ([TestPack_MultipleRectangles]). *)
Definition fiveRectangles : Packable :=
  packableOf [mkRectangle 100 200; mkRectangle 50 50; mkRectangle 80 120;
              mkRectangle 30 60; mkRectangle 70 70].

(** Four rectangles whose widths add up to more than [math.MaxInt64]. *)
Definition overflowRectangles : list Rectangle :=
  [mkRectangle 9223372036854775805 1; mkRectangle 1 4; mkRectangle 3 1; mkRectangle 1 1].
Definition overflowInput : Packable := packableOf overflowRectangles.

(** The calls of [Place] on [overflowInput]. *)
Definition overflowCalls : list PlaceCall :=
  [mkPlace 0 (-9223372036854775808) 0; mkPlace 1 (-3) 0;
   mkPlace 2 (-3) 1; mkPlace 3 0 4].

(** *** Runs without ties *)

Definition scoreLeb (s t : Z * Z) : bool :=
  (s.1 <? t.1) || ((s.1 =? t.1) && (s.2 <=? t.2)).

(** No candidate of [cands] scores less than [c]. *)
Definition isLeast (b : bounds) (r : Rectangle) (cands : list (Z * Z)) (c : Z * Z) : bool :=
  forallb (fun c' => scoreLeb (score b r c) (score b r c')) cands.

(** The surviving candidates with the least score, the candidate
    coordinates being enumerated in the order of [elements]. *)
Definition leastSurvivors (b : bounds) (r : Rectangle) (placements : list placement)
    : list (Z * Z) :=
  let cands :=
    survivors r placements
      (candidatePairs (elements (xKeys placements)) (elements (yKeys placements))) in
  List.filter (isLeast b r cands) cands.

(** Exactly one surviving candidate has the least score. *)
Definition uniqueLeast (b : bounds) (r : Rectangle) (placements : list placement) : bool :=
  match leastSurvivors b r placements with
  | [_] => true
  | _ => false
  end.

(** At every turn of the main loop, from [placements] on, exactly one
    surviving candidate has the least score. *)
Fixpoint uniqueLeastLoop (p : Packable) (placements : list placement)
    (positions : list Z) : bool :=
  match positions with
  | [] => true
  | pos :: rest =>
      match computeBounds placements with
      | None => true
      | Some b => uniqueLeast b (RectangleAt p pos) placements
      end
      && match Pack_step rangeForward rangeForward p placements pos with
         | Some placements' => uniqueLeastLoop p placements' rest
         | None => false
         end
  end.

Definition uniqueLeastRun (sortSlice : (Z -> Z -> bool) -> list Z -> list Z)
    (p : Packable) : bool :=
  uniqueLeastLoop p [] (sortSlice (areaGreater p) (initialPositions (Len p))).

(** *** The collection of the test suite *)

(** [rectanglesOverlapTest] of the test file: the overlap test on bare
    coordinates and dimensions. *)
Definition rectanglesOverlapTest (x1 y1 w1 h1 x2 y2 w2 h2 : Z) : bool :=
  if (add64 x2 w2 <=? x1) || (add64 x1 w1 <=? x2) then false
  else if (add64 y2 h2 <=? y1) || (add64 y1 h1 <=? y2) then false
  else true.

Module TestPackable.

(** [type testPackable struct { rectangles []binpack.Rectangle;
    placements []struct{ x, y int } }]; the [Collager] of the example
    has the same shape, with [Locations] for [placements]. *)
Record testPackable : Type :=
  mkTestPackable { rectangles : list Rectangle; placements : list (Z * Z) }.

(** [newTestPackable]: [placements] is made with the length of [rects],
    all zero. *)
Definition newTestPackable (rects : list Rectangle) : testPackable :=
  mkTestPackable rects (replicate (length rects) (0, 0)).

(** [Len] *)
Definition Len (tp : testPackable) : Z := Z.of_nat (length (rectangles tp)).

(** [Rectangle(n)]: indexing out of range panics ([None]). *)
Definition RectangleAt (tp : testPackable) (n : Z) : option Rectangle :=
  if n <? 0 then None else rectangles tp !! Z.to_nat n.

(** [Place(n, x, y)]: indexing out of range panics ([None]). *)
Definition Place (tp : testPackable) (c : PlaceCall) : option testPackable :=
  if (0 <=? placeN c) && (placeN c <? Z.of_nat (length (placements tp)))
  then Some (mkTestPackable (rectangles tp)
               (<[Z.to_nat (placeN c) := (placeX c, placeY c)]> (placements tp)))
  else None.

(** The calls of [Place] of one run, in order. *)
Fixpoint runPlaces (tp : testPackable) (calls : list PlaceCall) : option testPackable :=
  match calls with
  | [] => Some tp
  | c :: rest => tp' ← Place tp c; runPlaces tp' rest
  end.

(** The collection as [Pack] reads it.  [Pack] asks for a rectangle only
    at the positions of its slice; outside the slice the value does not
    matter. *)
Definition asPackable (tp : testPackable) : Packable :=
  mkPackable (Len tp) (fun n => default (mkRectangle 0 0) (RectangleAt tp n)).

(** [binpack.Pack(tp)]: the returned pair and the collection after the
    calls of [Place]. *)
Definition Pack (sortSlice : (Z -> Z -> bool) -> list Z -> list Z)
    (rangeX rangeY : MapOrder) (tp : testPackable) : option (Z * Z * testPackable) :=
  '(w, h, calls) ← Pack sortSlice rangeX rangeY (asPackable tp);
  tp' ← runPlaces tp calls;
  Some (w, h, tp').

End TestPackable.

(** * Properties *)

(** ** Machine arithmetic *)

Module Int64Facts.
Import Int64.

Lemma wrap_range z : MinInt64 <= wrap z <= MaxInt64.
Proof.
  unfold wrap, MinInt64, MaxInt64, half, modulus.
  pose proof (Z.mod_pos_bound (z + 2 ^ 63) (2 ^ 64) ltac:(lia)). lia.
Qed.

Lemma wrap_small z : MinInt64 <= z <= MaxInt64 -> wrap z = z.
Proof.
  unfold wrap, MinInt64, MaxInt64, half, modulus. intros Hz.
  rewrite Z.mod_small by lia. lia.
Qed.

(** Wrapping changes a number by a multiple of [2 ^ 64]. *)
Lemma wrap_shift z : exists k, wrap z = z + k * 2 ^ 64.
Proof.
  exists (- ((z + half) / modulus)). unfold wrap.
  rewrite Z.mod_eq by (unfold modulus; lia). unfold modulus. lia.
Qed.

Lemma wrap_mod8 z : wrap z mod 8 = z mod 8.
Proof.
  destruct (wrap_shift z) as [k ->].
  replace (z + k * 2 ^ 64) with (z + (k * 2 ^ 61) * 8) by lia.
  apply Z_mod_plus_full.
Qed.

Lemma square_mod8 a : (a * a) mod 8 = 0 \/ (a * a) mod 8 = 1 \/ (a * a) mod 8 = 4.
Proof.
  rewrite Zmult_mod.
  pose proof (Z.mod_pos_bound a 8 ltac:(lia)) as Hr.
  assert (Hc : a mod 8 = 0 \/ a mod 8 = 1 \/ a mod 8 = 2 \/ a mod 8 = 3 \/
               a mod 8 = 4 \/ a mod 8 = 5 \/ a mod 8 = 6 \/ a mod 8 = 7) by lia.
  destruct Hc as [-> | [-> | [-> | [-> | [-> | [-> | [-> | ->]]]]]]]; vm_compute; tauto.
Qed.

(** A wrapped sum of two wrapped squares is never [math.MaxInt64]: modulo
    8 the former is 0, 1, 2, 4 or 5 and the latter is 7. *)
Lemma sum_of_squares_not_max a c : add (mul a a) (mul c c) <> MaxInt64.
Proof.
  intros Heq.
  assert (Hm : add (mul a a) (mul c c) mod 8 = 7) by (rewrite Heq; reflexivity).
  unfold add, mul in Hm. rewrite wrap_mod8, Zplus_mod, !wrap_mod8 in Hm.
  destruct (square_mod8 a) as [Ha | [Ha | Ha]], (square_mod8 c) as [Hc | [Hc | Hc]];
    rewrite Ha, Hc in Hm; vm_compute in Hm; discriminate Hm.
Qed.

Lemma add_range a c : MinInt64 <= add a c <= MaxInt64.
Proof. apply wrap_range. Qed.

Lemma mul_range a c : MinInt64 <= mul a c <= MaxInt64.
Proof. apply wrap_range. Qed.

Lemma add_exact a c : MinInt64 <= a + c <= MaxInt64 -> add a c = a + c.
Proof. apply wrap_small. Qed.

Lemma sub_exact a c : MinInt64 <= a - c <= MaxInt64 -> sub a c = a - c.
Proof. apply wrap_small. Qed.

Lemma mul_exact a c : MinInt64 <= a * c <= MaxInt64 -> mul a c = a * c.
Proof. apply wrap_small. Qed.

End Int64Facts.

(** ** Bounding boxes *)

Import Int64Facts.

Lemma computeBounds_body_expand b r :
  computeBounds_body b r = expandBoundsForPlacement r b.
Proof. reflexivity. Qed.

Lemma tightBounds_equiv L L' b :
  (forall q, q ∈ L <-> q ∈ L') -> tightBounds L b -> tightBounds L' b.
Proof.
  intros Heq [H1 H2 H3 H4 (q1 & ? & ?) (q2 & ? & ?) (q3 & ? & ?) (q4 & ? & ?)].
  split; try (intros q Hq; apply Heq in Hq; auto).
  - exists q1. split; [by apply Heq | done].
  - exists q2. split; [by apply Heq | done].
  - exists q3. split; [by apply Heq | done].
  - exists q4. split; [by apply Heq | done].
Qed.

Lemma tightBounds_single p0 :
  tightBounds [p0]
    (mkBounds (x p0) (y p0) (add64 (x p0) (width p0)) (add64 (y p0) (height p0))).
Proof.
  split; simpl; try (intros q ->%list_elem_of_singleton; lia);
    exists p0; split; try reflexivity; apply list_elem_of_singleton; reflexivity.
Qed.

Local Ltac pick_witness r q :=
  first [ exists r; split; [apply elem_of_app; right; apply list_elem_of_singleton; reflexivity | simpl; lia]
        | exists q; split; [apply elem_of_app; left; assumption | simpl; lia] ].

Lemma computeBounds_body_tight L b r :
  tightBounds L b -> tightBounds (L ++ [r]) (computeBounds_body b r).
Proof.
  intros [H1 H2 H3 H4 (q1 & Hq1 & E1) (q2 & Hq2 & E2) (q3 & Hq3 & E3) (q4 & Hq4 & E4)].
  destruct b as [mx my Mx My]. simpl in *. unfold computeBounds_body. simpl.
  destruct (Z.ltb_spec (x r) mx); simpl;
    destruct (Z.ltb_spec (y r) my); simpl;
    destruct (Z.ltb_spec Mx (add64 (x r) (width r))); simpl;
    destruct (Z.ltb_spec My (add64 (y r) (height r))); simpl;
    (split; simpl;
     [ intros q [Hq | ->%list_elem_of_singleton]%elem_of_app; [specialize (H1 q Hq) |]; lia
     | intros q [Hq | ->%list_elem_of_singleton]%elem_of_app; [specialize (H2 q Hq) |]; lia
     | intros q [Hq | ->%list_elem_of_singleton]%elem_of_app; [specialize (H3 q Hq) |]; lia
     | intros q [Hq | ->%list_elem_of_singleton]%elem_of_app; [specialize (H4 q Hq) |]; lia
     | pick_witness r q1 | pick_witness r q2 | pick_witness r q3 | pick_witness r q4 ]).
Qed.

Lemma foldl_computeBounds_tight l : forall L b,
  tightBounds L b -> tightBounds (L ++ l) (foldl computeBounds_body b l).
Proof.
  induction l as [| r l IH]; intros L b Hb; simpl.
  - by rewrite app_nil_r.
  - replace (L ++ r :: l) with ((L ++ [r]) ++ l) by (by rewrite <- app_assoc).
    apply IH. by apply computeBounds_body_tight.
Qed.

(** [computeBounds] returns for every non-empty slice, and what it returns
    is the tight bounding box. *)
Lemma computeBounds_tight placements :
  placements <> [] ->
  exists b, computeBounds placements = Some b /\ tightBounds placements b.
Proof.
  destruct placements as [| p0 rest]; [done | intros _].
  eexists. split; [reflexivity |].
  eapply tightBounds_equiv; [| apply (foldl_computeBounds_tight (p0 :: rest) [p0]);
                                apply tightBounds_single].
  intros q. rewrite elem_of_app, list_elem_of_singleton, elem_of_cons. tauto.
Qed.

Lemma computeBounds_Some_tight placements b :
  computeBounds placements = Some b -> tightBounds placements b.
Proof.
  intros Hb. destruct placements as [| p0 rest]; [discriminate |].
  destruct (computeBounds_tight (p0 :: rest)) as (b' & Hb' & Ht); [done |].
  congruence.
Qed.

(** ** The intersection test *)

Lemma doRectanglesIntersect_sym a b :
  doRectanglesIntersect a b = doRectanglesIntersect b a.
Proof.
  unfold doRectanglesIntersect.
  rewrite (orb_comm (add64 (x b) (width b) <=? x a)).
  by rewrite (orb_comm (add64 (y b) (height b) <=? y a)).
Qed.

(** A rectangle whose left edge is at or beyond the right edge of another
    one does not intersect it. *)
Lemma doRectanglesIntersect_right_of a b :
  add64 (x b) (width b) <= x a -> doRectanglesIntersect a b = false.
Proof.
  intros H. unfold doRectanglesIntersect.
  apply Z.leb_le in H. by rewrite H.
Qed.

Lemma hasIntersection_false candidate placements :
  hasIntersection candidate placements = false <->
  forall q, q ∈ placements -> doRectanglesIntersect candidate q = false.
Proof.
  induction placements as [| p rest IH]; simpl.
  - split; [intros _ q Hq; by apply elem_of_nil in Hq | done].
  - destruct (doRectanglesIntersect candidate p) eqn:Hp.
    + split; [done | intros H]. rewrite <- Hp. apply H. left.
    + rewrite IH. split.
      * intros H q [-> | Hq]%elem_of_cons; auto.
      * intros H q Hq. apply H. by right.
Qed.

Lemma hasIntersection_true candidate placements :
  hasIntersection candidate placements = true <->
  exists q, q ∈ placements /\ doRectanglesIntersect candidate q = true.
Proof.
  induction placements as [| p rest IH]; simpl.
  - split; [done | intros (q & Hq & _); by apply elem_of_nil in Hq].
  - destruct (doRectanglesIntersect candidate p) eqn:Hp.
    + split; [intros _; exists p; split; [left | done] | done].
    + rewrite IH. split.
      * intros (q & Hq & Hi). exists q. split; [by right | done].
      * intros (q & [-> | Hq]%elem_of_cons & Hi); [congruence | eauto].
Qed.

(** ** Candidate coordinates *)

Lemma elem_of_xKeys rects k :
  k ∈ xKeys rects <-> exists q, q ∈ rects /\ (k = x q \/ k = add64 (x q) (width q)).
Proof.
  unfold xKeys.
  assert (Hgen : forall (s : gset Z),
    k ∈ foldl (fun s r => {[ add64 (x r) (width r) ]} ∪ ({[ x r ]} ∪ s)) s rects <->
    k ∈ s \/ exists q, q ∈ rects /\ (k = x q \/ k = add64 (x q) (width q))).
  { induction rects as [| r rest IH]; intros s; simpl.
    - split; [auto | intros [? | (q & Hq & _)]; [done | by apply elem_of_nil in Hq]].
    - rewrite IH. rewrite !elem_of_union, !elem_of_singleton. split.
      + intros [[-> | [-> | Hs]] | (q & Hq & Hk)]; eauto 6 using list_elem_of_here.
        right. exists q. split; [by right | done].
      + intros [Hs | (q & [-> | Hq]%elem_of_cons & Hk)]; [tauto | tauto | eauto]. }
  rewrite Hgen. split; [intros [H | H]; [set_solver | done] | auto].
Qed.

Lemma elem_of_yKeys rects k :
  k ∈ yKeys rects <-> exists q, q ∈ rects /\ (k = y q \/ k = add64 (y q) (height q)).
Proof.
  unfold yKeys.
  assert (Hgen : forall (s : gset Z),
    k ∈ foldl (fun s r => {[ add64 (y r) (height r) ]} ∪ ({[ y r ]} ∪ s)) s rects <->
    k ∈ s \/ exists q, q ∈ rects /\ (k = y q \/ k = add64 (y q) (height q))).
  { induction rects as [| r rest IH]; intros s; simpl.
    - split; [auto | intros [? | (q & Hq & _)]; [done | by apply elem_of_nil in Hq]].
    - rewrite IH. rewrite !elem_of_union, !elem_of_singleton. split.
      + intros [[-> | [-> | Hs]] | (q & Hq & Hk)]; eauto 6 using list_elem_of_here.
        right. exists q. split; [by right | done].
      + intros [Hs | (q & [-> | Hq]%elem_of_cons & Hk)]; [tauto | tauto | eauto]. }
  rewrite Hgen. split; [intros [H | H]; [set_solver | done] | auto].
Qed.

(** A legal enumeration of a key set has exactly the keys as elements. *)
Lemma elem_of_range (range : MapOrder) n (s : gset Z) k :
  validOrder range -> k ∈ range n s <-> k ∈ s.
Proof. intros Hv. rewrite (Hv n s). apply elem_of_elements. Qed.


(** ** The choice of [findBestPlacement] *)

Lemma scoreLt_trans s t u : scoreLt s t -> scoreLt t u -> scoreLt s u.
Proof. unfold scoreLt. lia. Qed.

Lemma scoreLt_le_trans s t u : scoreLt s t -> scoreLe t u -> scoreLt s u.
Proof. unfold scoreLt, scoreLe. lia. Qed.

Lemma scoreLt_le s t : scoreLt s t -> scoreLe s t.
Proof. unfold scoreLt, scoreLe. lia. Qed.

Lemma scoreLe_refl s : scoreLe s s.
Proof. unfold scoreLe. lia. Qed.

Lemma scoreLe_antisym s t : scoreLe s t -> scoreLe t s -> s = t.
Proof. destruct s, t. unfold scoreLe. simpl. intros. f_equal; lia. Qed.

Lemma improves_true area dist st :
  improves area dist st = true <->
  scoreLt (area, dist) (bestArea st, bestCenterDistance st).
Proof. unfold improves, scoreLt. simpl. lia. Qed.

Lemma improves_false area dist st :
  improves area dist st = false <->
  scoreLe (bestArea st, bestCenterDistance st) (area, dist).
Proof. unfold improves, scoreLe. simpl. lia. Qed.

(** The first surviving candidate always replaces the initial values: its
    area is at most [math.MaxInt64] and its distance is below it. *)
Lemma improves_init b candidate :
  improves (candidateArea b candidate) (centerDistance b candidate) best_init = true.
Proof.
  apply improves_true. unfold scoreLt, best_init. simpl.
  pose proof (mul_range (sub64 (maxX (expandBoundsForPlacement candidate b))
                               (minX (expandBoundsForPlacement candidate b)))
                        (sub64 (maxY (expandBoundsForPlacement candidate b))
                               (minY (expandBoundsForPlacement candidate b)))) as Ha.
  fold (candidateArea b candidate) in Ha.
  assert (Hd : centerDistance b candidate < MaxInt64).
  { unfold centerDistance.
    match goal with |- add64 (mul64 ?u ?u) (mul64 ?v ?v) < _ =>
      pose proof (add_range (mul64 u u) (mul64 v v));
      pose proof (sum_of_squares_not_max u v) end.
    lia. }
  lia.
Qed.

(** When nothing wraps, the two scores are the area of the expanded
    bounds and the squared distance of the centres. *)
Lemma Area_exact r :
  Int64.inRange (Width r * Height r) -> Area r = Width r * Height r.
Proof. apply mul_exact. Qed.

Lemma candidateArea_exact b candidate :
  let bb := expandBoundsForPlacement candidate b in
  Int64.inRange (maxX bb - minX bb) -> Int64.inRange (maxY bb - minY bb) ->
  Int64.inRange ((maxX bb - minX bb) * (maxY bb - minY bb)) ->
  candidateArea b candidate = (maxX bb - minX bb) * (maxY bb - minY bb).
Proof.
  intros bb Hw Hh Ha. unfold candidateArea. fold bb.
  rewrite !sub_exact by done. by apply mul_exact.
Qed.

Lemma findBestPlacement_loop_flat xs ys b r placements :
  findBestPlacement_loop xs ys b r placements =
  foldl (considerPair b r placements) best_init (candidatePairs xs ys).
Proof.
  unfold findBestPlacement_loop, candidatePairs. generalize best_init.
  induction xs as [| cx xs IH]; intros st; simpl; [done |].
  rewrite foldl_app, IH. f_equal.
  clear. revert st. induction ys as [| cy ys IH]; intros st; simpl; [done | apply IH].
Qed.

Lemma survivors_app r placements l1 l2 :
  survivors r placements (l1 ++ l2) = survivors r placements l1 ++ survivors r placements l2.
Proof. apply List.filter_app. Qed.

Lemma survivors_single r placements cx cy :
  survivors r placements [(cx, cy)] =
  if hasIntersection (candidateAt r cx cy) placements then [] else [(cx, cy)].
Proof.
  unfold survivors, survives. simpl.
  by destruct (hasIntersection (candidateAt r cx cy) placements).
Qed.

Lemma elem_of_survivors r placements l c :
  c ∈ survivors r placements l <-> c ∈ l /\ survives r placements c = true.
Proof. unfold survivors. rewrite !list_elem_of_In. apply List.filter_In. Qed.

Lemma elem_of_candidatePairs xs ys cx cy :
  (cx, cy) ∈ candidatePairs xs ys <-> cx ∈ xs /\ cy ∈ ys.
Proof.
  unfold candidatePairs. rewrite !list_elem_of_In, in_flat_map. split.
  - intros (a & Ha & Hin). apply in_map_iff in Hin as (c & [= -> ->] & Hc). done.
  - intros [Hx Hy]. exists cx. split; [done |]. apply in_map_iff. eauto.
Qed.

Lemma bestInv_init b r placements : bestInv b r placements [] best_init.
Proof. by split. Qed.

Lemma bestInv_step b r placements seen st c :
  bestInv b r placements seen st ->
  bestInv b r placements (seen ++ [c]) (considerPair b r placements st c).
Proof.
  unfold bestInv, considerPair, consider. intros Hinv.
  destruct c as [cx cy]. rewrite survivors_app, survivors_single. simpl.
  destruct (hasIntersection (candidateAt r cx cy) placements) eqn:Hi; simpl.
  { by rewrite app_nil_r. }
  set (area := candidateArea b (candidateAt r cx cy)).
  set (dist := centerDistance b (candidateAt r cx cy)).
  destruct (found st) eqn:Hf.
  - destruct Hinv as [(before & after & Hs & Hb & Ha) Hsc].
    destruct (improves area dist st) eqn:Himp; simpl.
    + apply improves_true in Himp. rewrite Hsc in Himp.
      split; [| done].
      exists (survivors r placements seen), []. split; [done |]. split; [| constructor].
      rewrite Hs. apply Forall_app. split; [| constructor].
      * eapply Forall_impl; [exact Hb |]. intros c' Hc'. simpl in Hc'.
        eapply scoreLt_trans; [exact Himp | exact Hc'].
      * exact Himp.
      * eapply Forall_impl; [exact Ha |]. intros c' Hc'. simpl in Hc'.
        eapply scoreLt_le_trans; [exact Himp | exact Hc'].
    + apply improves_false in Himp. rewrite Hsc in Himp. rewrite Hf.
      split; [| done].
      exists before, (after ++ [(cx, cy)]). split; [by rewrite Hs, <- app_assoc |].
      split; [done |]. apply Forall_app. split; [done |].
      constructor; [exact Himp | constructor].
  - destruct Hinv as [-> Hs]. unfold area, dist. rewrite improves_init. simpl.
    split; [| done]. rewrite Hs. exists [], []. by repeat split.
Qed.

Lemma bestInv_foldl b r placements l : forall seen st,
  bestInv b r placements seen st ->
  bestInv b r placements (seen ++ l) (foldl (considerPair b r placements) st l).
Proof.
  induction l as [| c l IH]; intros seen st Hinv; simpl.
  - by rewrite app_nil_r.
  - replace (seen ++ c :: l) with ((seen ++ [c]) ++ l) by (by rewrite <- app_assoc).
    apply IH. by apply bestInv_step.
Qed.

Lemma findBestPlacement_loop_inv xs ys b r placements :
  bestInv b r placements (candidatePairs xs ys)
    (findBestPlacement_loop xs ys b r placements).
Proof.
  rewrite findBestPlacement_loop_flat.
  apply (bestInv_foldl b r placements (candidatePairs xs ys) [] best_init).
  apply bestInv_init.
Qed.

(** [findBestPlacement] finds a candidate exactly when one survives, and
    then returns the first survivor with the least score. *)
Lemma findBestPlacement_found xs ys b r placements :
  survivors r placements (candidatePairs xs ys) <> [] ->
  exists bx by_,
    findBestPlacement xs ys b r placements = (bx, by_, true) /\
    firstBest b r (survivors r placements (candidatePairs xs ys)) (bx, by_).
Proof.
  intros Hne. pose proof (findBestPlacement_loop_inv xs ys b r placements) as Hinv.
  unfold bestInv in Hinv. unfold findBestPlacement.
  destruct (found (findBestPlacement_loop xs ys b r placements)).
  - destruct Hinv as [Hfb _]. eauto.
  - by destruct Hinv as [_ Hs].
Qed.

Lemma findBestPlacement_not_found xs ys b r placements :
  survivors r placements (candidatePairs xs ys) = [] ->
  findBestPlacement xs ys b r placements = (0, 0, false).
Proof.
  intros Hnil. pose proof (findBestPlacement_loop_inv xs ys b r placements) as Hinv.
  unfold bestInv in Hinv. unfold findBestPlacement.
  destruct (found (findBestPlacement_loop xs ys b r placements)) eqn:Hf.
  - destruct Hinv as [(before & after & Hs & _) _]. rewrite Hnil in Hs.
    by destruct before.
  - destruct Hinv as [-> _]. reflexivity.
Qed.

Lemma firstBest_elem b r cands c : firstBest b r cands c -> c ∈ cands.
Proof.
  intros (before & after & -> & _). apply elem_of_app. right. left.
Qed.

(** The first best candidate scores no more than any other one. *)
Lemma firstBest_least b r cands c c' :
  firstBest b r cands c -> c' ∈ cands -> scoreLe (score b r c) (score b r c').
Proof.
  intros (before & after & -> & Hb & Ha) Hin.
  rewrite Forall_forall in Hb, Ha.
  apply elem_of_app in Hin as [Hin | [-> | Hin]%elem_of_cons].
  - apply scoreLt_le. auto.
  - apply scoreLe_refl.
  - auto.
Qed.

(** ** The corner candidate *)

Lemma rangeForward_valid : validOrder rangeForward.
Proof. intros n s. reflexivity. Qed.

Lemma rangeBackward_valid : validOrder rangeBackward.
Proof. intros n s. unfold rangeBackward. apply reverse_Permutation. Qed.

Section Candidates.

Variables rangeX rangeY : MapOrder.
Hypothesis rangeX_valid : validOrder rangeX.
Hypothesis rangeY_valid : validOrder rangeY.

Lemma elem_of_xCandidates rects k :
  k ∈ (getCandidatePositions rangeX rangeY rects).1 <->
  exists q, q ∈ rects /\ (k = x q \/ k = add64 (x q) (width q)).
Proof. simpl. rewrite elem_of_range by done. apply elem_of_xKeys. Qed.

Lemma elem_of_yCandidates rects k :
  k ∈ (getCandidatePositions rangeX rangeY rects).2 <->
  exists q, q ∈ rects /\ (k = y q \/ k = add64 (y q) (height q)).
Proof. simpl. rewrite elem_of_range by done. apply elem_of_yKeys. Qed.

(** The pair [(maxX, minY)] of the tight bounds is a candidate and
    survives: it lies at or beyond every right edge. *)
Lemma corner_survives placements b r :
  tightBounds placements b ->
  (maxX b, minY b) ∈
    survivors r placements
      (candidatePairs (getCandidatePositions rangeX rangeY placements).1
                      (getCandidatePositions rangeX rangeY placements).2).
Proof.
  intros Ht. apply elem_of_survivors. split.
  - apply elem_of_candidatePairs. split.
    + apply elem_of_xCandidates. destruct (tight_maxX_at _ _ Ht) as (q & Hq & E). eauto.
    + apply elem_of_yCandidates. destruct (tight_minY_at _ _ Ht) as (q & Hq & E). eauto.
  - unfold survives. simpl. apply negb_true_iff, hasIntersection_false.
    intros q Hq. apply doRectanglesIntersect_right_of. simpl.
    by apply (tight_maxX _ _ Ht).
Qed.

(** With the candidates of [getCandidatePositions], [findBestPlacement]
    always finds one, and [choosePosition] returns it. *)
Lemma choosePosition_found placements b r :
  tightBounds placements b ->
  exists bx by_,
    findBestPlacement (getCandidatePositions rangeX rangeY placements).1
      (getCandidatePositions rangeX rangeY placements).2 b r placements = (bx, by_, true) /\
    choosePosition (getCandidatePositions rangeX rangeY placements).1
      (getCandidatePositions rangeX rangeY placements).2 b r placements = (bx, by_) /\
    firstBest b r
      (survivors r placements
         (candidatePairs (getCandidatePositions rangeX rangeY placements).1
                         (getCandidatePositions rangeX rangeY placements).2))
      (bx, by_).
Proof.
  intros Ht.
  destruct (findBestPlacement_found (getCandidatePositions rangeX rangeY placements).1
              (getCandidatePositions rangeX rangeY placements).2 b r placements)
    as (bx & by_ & Hf & Hfb).
  { intros Hnil. pose proof (corner_survives placements b r Ht) as Hin.
    rewrite Hnil in Hin. by apply elem_of_nil in Hin. }
  exists bx, by_. split; [done |]. split; [| done].
  unfold choosePosition. by rewrite Hf.
Qed.

(** What one turn of the main loop does on a non-empty slice. *)
Lemma Pack_step_cons p placements pos b :
  computeBounds placements = Some b ->
  Pack_step rangeX rangeY p placements pos =
  Some (placements ++
          [mkPlacement pos
             (choosePosition (getCandidatePositions rangeX rangeY placements).1
                (getCandidatePositions rangeX rangeY placements).2 b
                (RectangleAt p pos) placements).1
             (choosePosition (getCandidatePositions rangeX rangeY placements).1
                (getCandidatePositions rangeX rangeY placements).2 b
                (RectangleAt p pos) placements).2
             (Width (RectangleAt p pos)) (Height (RectangleAt p pos))]).
Proof.
  intros Hb. unfold Pack_step.
  destruct placements as [| p0 rest]; [discriminate |].
  rewrite Hb. simpl.
  by destruct (choosePosition _ _ b (RectangleAt p pos) (p0 :: rest)).
Qed.

End Candidates.

(** ** The overlap test and half-open rectangles *)

(** C7, as amended.  For two placements of positive width and height
    whose right and bottom edges are representable, [doRectanglesIntersect]
    reports an overlap exactly when the half-open x-intervals share a
    point and the half-open y-intervals share a point; rectangles that
    only touch at an edge are not reported. *)
Theorem doRectanglesIntersect_iff_overlap (a b : placement) :
  0 < width a -> 0 < height a -> 0 < width b -> 0 < height b ->
  edgesFit a -> edgesFit b ->
  doRectanglesIntersect a b = true <-> overlapHalfOpen a b.
Proof.
  intros Hwa Hha Hwb Hhb [Hax Hay] [Hbx Hby].
  unfold doRectanglesIntersect, overlapHalfOpen, sharePoint.
  unfold Int64.inRange in *.
  rewrite !Int64Facts.add_exact by done.
  destruct (Z.leb_spec (x b + width b) (x a)), (Z.leb_spec (x a + width a) (x b)),
           (Z.leb_spec (y b + height b) (y a)), (Z.leb_spec (y a + height a) (y b));
    simpl; split; try discriminate; try (intros [[px ?] [py ?]]; lia);
    intros _; (split; [exists (Z.max (x a) (x b)) | exists (Z.max (y a) (y b))]); lia.
Qed.

Lemma doRectanglesIntersect_iff_overlap_witness :
  doRectanglesIntersect (mkPlacement 0 0 0 10 10) (mkPlacement 1 5 5 10 10) = true <->
  overlapHalfOpen (mkPlacement 0 0 0 10 10) (mkPlacement 1 5 5 10 10).
Proof.
  apply (doRectanglesIntersect_iff_overlap
           (mkPlacement 0 0 0 10 10) (mkPlacement 1 5 5 10 10));
    unfold edgesFit, Int64.inRange, Int64.MinInt64, Int64.MaxInt64; simpl; lia.
Defined.

(** C7 as stated fails in both directions.  A rectangle of width and
    height zero strictly inside another one is reported as overlapping,
    although its half-open intervals are empty; and two equal rectangles
    whose right edge wraps around are reported as disjoint. *)
Lemma doRectanglesIntersect_not_half_open :
  (doRectanglesIntersect (mkPlacement 0 5 5 0 0) (mkPlacement 1 0 0 10 10) = true /\
   ~ overlapHalfOpen (mkPlacement 0 5 5 0 0) (mkPlacement 1 0 0 10 10)) /\
  (doRectanglesIntersect (mkPlacement 0 9223372036854775807 0 1 1)
                         (mkPlacement 1 9223372036854775807 0 1 1) = false /\
   overlapHalfOpen (mkPlacement 0 9223372036854775807 0 1 1)
                   (mkPlacement 1 9223372036854775807 0 1 1)).
Proof.
  split; split.
  - reflexivity.
  - intros [[px Hx] _]. simpl in Hx. lia.
  - reflexivity.
  - split; [exists 9223372036854775807 | exists 0]; simpl; lia.
Qed.

(** ** The fallback position *)



(** ** The fallback is never taken *)

(** C10.  For every non-empty slice of placements and every rectangle,
    with candidates enumerated from the two maps in any order:
    [(bounds.maxX, bounds.minY)] is a candidate pair, it intersects no
    placement, and [findBestPlacement] returns [found = true], so that
    [choosePosition] does not fall back. *)
Theorem findBestPlacement_always_found (rangeX rangeY : MapOrder)
    (placements : list placement) (r : Rectangle) :
  validOrder rangeX -> validOrder rangeY ->
  placements <> [] ->
  exists b bx by_,
    computeBounds placements = Some b /\
    maxX b ∈ (getCandidatePositions rangeX rangeY placements).1 /\
    minY b ∈ (getCandidatePositions rangeX rangeY placements).2 /\
    hasIntersection (candidateAt r (maxX b) (minY b)) placements = false /\
    findBestPlacement (getCandidatePositions rangeX rangeY placements).1
      (getCandidatePositions rangeX rangeY placements).2 b r placements
    = (bx, by_, true) /\
    choosePosition (getCandidatePositions rangeX rangeY placements).1
      (getCandidatePositions rangeX rangeY placements).2 b r placements
    = (bx, by_).
Proof.
  intros HvX HvY Hne.
  destruct (computeBounds_tight placements Hne) as (b & Hb & Ht).
  destruct (choosePosition_found rangeX rangeY HvX HvY placements b r Ht)
    as (bx & by_ & Hf & Hc & _).
  pose proof (corner_survives rangeX rangeY HvX HvY placements b r Ht) as Hin.
  apply elem_of_survivors in Hin as [[Hx Hy]%elem_of_candidatePairs Hs].
  unfold survives in Hs. simpl in Hs. apply negb_true_iff in Hs.
  exists b, bx, by_. done.
Qed.

Lemma findBestPlacement_always_found_witness :
  exists b bx by_,
    computeBounds [mkPlacement 0 0 0 10 10] = Some b /\
    maxX b ∈ (getCandidatePositions rangeForward rangeBackward [mkPlacement 0 0 0 10 10]).1 /\
    minY b ∈ (getCandidatePositions rangeForward rangeBackward [mkPlacement 0 0 0 10 10]).2 /\
    hasIntersection (candidateAt (mkRectangle 5 5) (maxX b) (minY b))
      [mkPlacement 0 0 0 10 10] = false /\
    findBestPlacement
      (getCandidatePositions rangeForward rangeBackward [mkPlacement 0 0 0 10 10]).1
      (getCandidatePositions rangeForward rangeBackward [mkPlacement 0 0 0 10 10]).2
      b (mkRectangle 5 5) [mkPlacement 0 0 0 10 10] = (bx, by_, true) /\
    choosePosition
      (getCandidatePositions rangeForward rangeBackward [mkPlacement 0 0 0 10 10]).1
      (getCandidatePositions rangeForward rangeBackward [mkPlacement 0 0 0 10 10]).2
      b (mkRectangle 5 5) [mkPlacement 0 0 0 10 10] = (bx, by_).
Proof.
  apply (findBestPlacement_always_found rangeForward rangeBackward
           [mkPlacement 0 0 0 10 10] (mkRectangle 5 5)).
  - apply rangeForward_valid.
  - apply rangeBackward_valid.
  - discriminate.
Defined.

(** ** The selected candidate *)


(** ** The main loop of [Pack] *)

Lemma sumZ_app l1 l2 : sumZ (l1 ++ l2) = sumZ l1 + sumZ l2.
Proof. unfold sumZ. induction l1 as [| a l1 IH]; simpl; lia. Qed.

Lemma sumZ_snoc {A} (f : A -> Z) l a : sumZ (map f (l ++ [a])) = sumZ (map f l) + f a.
Proof. rewrite map_app, sumZ_app. unfold sumZ at 2. simpl. lia. Qed.

Lemma sumZ_cons a l : sumZ (a :: l) = a + sumZ l.
Proof. reflexivity. Qed.

Lemma sumZ_Permutation l1 l2 : l1 ≡ₚ l2 -> sumZ l1 = sumZ l2.
Proof. unfold sumZ. induction 1; simpl; lia. Qed.

Lemma sumZ_nonneg {A} (f : A -> Z) l :
  (forall a, a ∈ l -> 0 <= f a) -> 0 <= sumZ (map f l).
Proof.
  induction l as [| a l IH]; intros Hall; simpl; [vm_compute; discriminate |].
  rewrite sumZ_cons. pose proof (Hall a ltac:(left)).
  assert (0 <= sumZ (map f l)) by (apply IH; intros c Hc; apply Hall; by right).
  lia.
Qed.

Lemma elem_of_initialPositions count n :
  n ∈ initialPositions count <-> 0 <= n < count.
Proof.
  unfold initialPositions. rewrite list_elem_of_In, in_map_iff. split.
  - intros (k & <- & Hk). apply in_seq in Hk. lia.
  - intros Hn. exists (Z.to_nat n). split; [lia |]. apply in_seq. lia.
Qed.

Lemma NoDup_initialPositions count : NoDup (initialPositions count).
Proof.
  unfold initialPositions. apply NoDup_ListNoDup, Finite.Injective_map_NoDup.
  - intros a b. lia.
  - apply List.seq_NoDup.
Qed.

Lemma length_initialPositions count :
  length (initialPositions count) = Z.to_nat count.
Proof. unfold initialPositions. by rewrite length_map, length_seq. Qed.

(** The intersection test does not look at the field [position]. *)
Lemma doRectanglesIntersect_candidate n r cx cy q :
  doRectanglesIntersect (mkPlacement n cx cy (Width r) (Height r)) q =
  doRectanglesIntersect (candidateAt r cx cy) q.
Proof. reflexivity. Qed.

Lemma noOverlap_nil : noOverlap [].
Proof. intros i j a b _ Hi. by rewrite lookup_nil in Hi. Qed.

Lemma noOverlap_snoc placements c :
  noOverlap placements ->
  (forall q, q ∈ placements -> doRectanglesIntersect c q = false) ->
  noOverlap (placements ++ [c]).
Proof.
  intros Hold Hnew i j a b Hij Hi Hj.
  apply lookup_app_Some in Hi as [Hi | [Hil Hi]];
    apply lookup_app_Some in Hj as [Hj | [Hjl Hj]].
  - eauto.
  - apply list_lookup_singleton_Some in Hj as [_ <-].
    rewrite doRectanglesIntersect_sym. apply Hnew. by eapply list_elem_of_lookup_2.
  - apply list_lookup_singleton_Some in Hi as [_ <-].
    apply Hnew. by eapply list_elem_of_lookup_2.
  - apply list_lookup_singleton_Some in Hi as [Hi0 _].
    apply list_lookup_singleton_Some in Hj as [Hj0 _]. lia.
Qed.

Lemma wellPlaced_nil p : wellPlaced p [].
Proof.
  split.
  - intros q Hq. by apply elem_of_nil in Hq.
  - apply noOverlap_nil.
  - discriminate.
Qed.

Lemma withinBudget_nil : withinBudget [].
Proof.
  split; try (vm_compute; discriminate).
  intros q Hq. by apply elem_of_nil in Hq.
Qed.

Section Loop.

Variables rangeX rangeY : MapOrder.
Hypothesis rangeX_valid : validOrder rangeX.
Hypothesis rangeY_valid : validOrder rangeY.

(** One turn of the loop on a non-empty slice appends the rectangle at a
    candidate pair that intersects no placement. *)
Lemma Pack_step_next p placements pos :
  placements <> [] ->
  exists b bx by_,
    computeBounds placements = Some b /\
    tightBounds placements b /\
    Pack_step rangeX rangeY p placements pos =
      Some (placements ++
              [mkPlacement pos bx by_
                 (Width (RectangleAt p pos)) (Height (RectangleAt p pos))]) /\
    bx ∈ (getCandidatePositions rangeX rangeY placements).1 /\
    by_ ∈ (getCandidatePositions rangeX rangeY placements).2 /\
    hasIntersection (candidateAt (RectangleAt p pos) bx by_) placements = false.
Proof.
  intros Hne.
  destruct (computeBounds_tight placements Hne) as (b & Hb & Ht).
  destruct (choosePosition_found rangeX rangeY rangeX_valid rangeY_valid placements b
              (RectangleAt p pos) Ht) as (bx & by_ & _ & Hc & Hfb).
  exists b, bx, by_. split; [done |]. split; [done |]. split.
  { rewrite (Pack_step_cons rangeX rangeY p placements pos b Hb). by rewrite Hc. }
  apply firstBest_elem, elem_of_survivors in Hfb as [[Hx Hy]%elem_of_candidatePairs Hs].
  unfold survives in Hs. simpl in Hs. apply negb_true_iff in Hs. done.
Qed.

(** Whatever the candidates, a turn of the loop appends one placement
    that carries the dimensions of the rectangle. *)
Lemma Pack_step_shape p placements pos placements' :
  Pack_step rangeX rangeY p placements pos = Some placements' ->
  exists bx by_,
    placements' = placements ++
      [mkPlacement pos bx by_ (Width (RectangleAt p pos)) (Height (RectangleAt p pos))].
Proof.
  intros Hstep. destruct placements as [| p0 rest].
  - injection Hstep as <-. by exists 0, 0.
  - destruct (computeBounds (p0 :: rest)) as [b |] eqn:Hb; [| discriminate].
    rewrite (Pack_step_cons rangeX rangeY p (p0 :: rest) pos b Hb) in Hstep.
    injection Hstep as <-. eauto.
Qed.

Lemma Pack_step_sums p placements pos placements' :
  Pack_step rangeX rangeY p placements pos = Some placements' ->
  sumZ (map width placements') =
    sumZ (map width placements) + Width (RectangleAt p pos) /\
  sumZ (map height placements') =
    sumZ (map height placements) + Height (RectangleAt p pos).
Proof.
  intros (bx & by_ & ->)%Pack_step_shape.
  rewrite !sumZ_snoc. done.
Qed.

Lemma Pack_step_wellPlaced p placements pos :
  wellPlaced p placements ->
  exists placements',
    Pack_step rangeX rangeY p placements pos = Some placements' /\
    map position placements' = map position placements ++ [pos] /\
    wellPlaced p placements'.
Proof.
  intros [Hd Ho Hz].
  destruct (decide (placements = [])) as [-> | Hne].
  - eexists. split; [reflexivity |]. split; [reflexivity |]. split.
    + intros q ->%list_elem_of_singleton. done.
    + intros i j a b Hij Hi Hj.
      apply list_lookup_singleton_Some in Hi as [Hi0 _].
      apply list_lookup_singleton_Some in Hj as [Hj0 _]. lia.
    + intros q [= <-]. done.
  - destruct (Pack_step_next p placements pos Hne)
      as (b & bx & by_ & _ & _ & Hstep & _ & _ & Hi).
    eexists. split; [exact Hstep |]. split; [by rewrite map_app |]. split.
    + intros q [Hq | ->%list_elem_of_singleton]%elem_of_app; [auto | done].
    + apply noOverlap_snoc; [done |]. intros q Hq.
      rewrite doRectanglesIntersect_candidate.
      by apply (proj1 (hasIntersection_false _ _) Hi).
    + intros q Hq. apply Hz. destruct placements; [done | exact Hq].
Qed.

Lemma Pack_loop_wellPlaced p positions : forall placements,
  wellPlaced p placements ->
  exists placements',
    Pack_loop rangeX rangeY p placements positions = Some placements' /\
    map position placements' = map position placements ++ positions /\
    wellPlaced p placements'.
Proof.
  induction positions as [| pos rest IH]; intros placements Hw; simpl.
  - exists placements. by rewrite app_nil_r.
  - destruct (Pack_step_wellPlaced p placements pos Hw) as (ps1 & Hstep & Hpos & Hw1).
    rewrite Hstep. simpl.
    destruct (IH ps1 Hw1) as (ps2 & Hloop & Hpos2 & Hw2).
    exists ps2. split; [done |]. split; [| done].
    by rewrite Hpos2, Hpos, <- app_assoc.
Qed.

(** As long as the sums of the widths and of the heights are
    representable, no edge wraps and every coordinate stays between zero
    and these sums. *)
Lemma Pack_step_budget p placements placements' pos :
  withinBudget placements ->
  0 <= Width (RectangleAt p pos) -> 0 <= Height (RectangleAt p pos) ->
  sumZ (map width placements) + Width (RectangleAt p pos) <= MaxInt64 ->
  sumZ (map height placements) + Height (RectangleAt p pos) <= MaxInt64 ->
  Pack_step rangeX rangeY p placements pos = Some placements' ->
  withinBudget placements'.
Proof.
  intros [He Hsw Hsh] Hw Hh Hbw Hbh Hstep.
  destruct (decide (placements = [])) as [-> | Hne].
  - simpl in Hstep. injection Hstep as <-.
    split; unfold sumZ in *; simpl in *; try lia.
    intros q ->%list_elem_of_singleton. simpl. lia.
  - destruct (Pack_step_next p placements pos Hne)
      as (b & bx & by_ & _ & _ & Hstep' & Hx & Hy & _).
    rewrite Hstep' in Hstep. injection Hstep as <-.
    apply elem_of_xCandidates in Hx as (qx & Hqx & Hbx); [| done].
    apply elem_of_yCandidates in Hy as (qy & Hqy & Hby); [| done].
    pose proof (He qx Hqx) as Hx1. pose proof (He qy Hqy) as Hy1.
    unfold Int64.MaxInt64 in *.
    rewrite Int64Facts.add_exact in Hbx
      by (unfold Int64.MinInt64, Int64.MaxInt64; lia).
    rewrite Int64Facts.add_exact in Hby
      by (unfold Int64.MinInt64, Int64.MaxInt64; lia).
    split; rewrite !sumZ_snoc; simpl; try (unfold Int64.MaxInt64; lia).
    intros q [Hq | ->%list_elem_of_singleton]%elem_of_app.
    + pose proof (He q Hq). lia.
    + simpl. lia.
Qed.

Lemma Pack_loop_budget p positions : forall placements placements',
  withinBudget placements ->
  (forall n, n ∈ positions ->
     0 <= Width (RectangleAt p n) /\ 0 <= Height (RectangleAt p n)) ->
  sumZ (map width placements) +
    sumZ (map (fun n => Width (RectangleAt p n)) positions) <= MaxInt64 ->
  sumZ (map height placements) +
    sumZ (map (fun n => Height (RectangleAt p n)) positions) <= MaxInt64 ->
  Pack_loop rangeX rangeY p placements positions = Some placements' ->
  withinBudget placements'.
Proof.
  induction positions as [| pos rest IH]; intros placements placements' Hb Hnn Hw Hh Hloop;
    simpl in Hloop.
  - by injection Hloop as <-.
  - destruct (Pack_step rangeX rangeY p placements pos) as [ps1 |] eqn:Hstep;
      [| discriminate]. simpl in Hloop.
    assert (Hrest : forall n, n ∈ rest ->
              0 <= Width (RectangleAt p n) /\ 0 <= Height (RectangleAt p n)).
    { intros n Hn. apply Hnn. by right. }
    assert (Hsw : 0 <= sumZ (map (fun n => Width (RectangleAt p n)) rest)).
    { apply sumZ_nonneg. intros n Hn. by apply Hrest. }
    assert (Hsh : 0 <= sumZ (map (fun n => Height (RectangleAt p n)) rest)).
    { apply sumZ_nonneg. intros n Hn. by apply Hrest. }
    pose proof (Hnn pos ltac:(left)) as [Hpw Hph].
    simpl map in Hw, Hh. rewrite sumZ_cons in Hw, Hh.
    assert (Hb1 : withinBudget ps1).
    { eapply (Pack_step_budget p placements ps1 pos); try done; lia. }
    destruct (Pack_step_sums p placements pos ps1 Hstep) as [Hw1 Hh1].
    apply (IH ps1 placements' Hb1 Hrest); [| | done].
    + rewrite Hw1. lia.
    + rewrite Hh1. lia.
Qed.

End Loop.

(** ** The layout and the calls of [Place] *)

Lemma areaGreater_strictWeakOrder p : strictWeakOrder (areaGreater p).
Proof.
  unfold areaGreater. split.
  - intros a. apply Z.ltb_irrefl.
  - intros a b c H1 H2. apply Z.ltb_lt in H1, H2. apply Z.ltb_lt. lia.
  - intros a b c H1 H2. apply Z.ltb_ge in H1, H2. apply Z.ltb_ge. lia.
Qed.

Lemma Locations_snoc calls c :
  Locations (calls ++ [c]) = <[placeN c := (placeX c, placeY c)]> (Locations calls).
Proof. unfold Locations. by rewrite foldl_app. Qed.

(** When no index is written twice, the storage holds exactly what the
    calls wrote. *)
Lemma Locations_lookup calls :
  NoDup (map placeN calls) ->
  forall n xy, Locations calls !! n = Some xy <-> mkPlace n xy.1 xy.2 ∈ calls.
Proof.
  induction calls as [| c calls IH] using rev_ind; intros Hnd n xy.
  - unfold Locations. simpl. rewrite lookup_empty, elem_of_nil. split; [discriminate | done].
  - rewrite map_app in Hnd. apply NoDup_app in Hnd as (Hnd & Hfresh & _).
    rewrite Locations_snoc, elem_of_app, list_elem_of_singleton.
    destruct (decide (placeN c = n)) as [<- | Hne].
    + rewrite lookup_insert_eq. split.
      * intros [= <-]. right. by destruct c.
      * intros [Hin | Heq]; [| rewrite <- Heq; by destruct xy]. exfalso.
        apply (Hfresh (placeN c)); [| simpl; left].
        apply list_elem_of_In, in_map_iff. exists (mkPlace (placeN c) xy.1 xy.2).
        split; [done | by apply list_elem_of_In].
    + rewrite lookup_insert_ne by done. rewrite (IH Hnd). split; [auto |].
      intros [Hin | Heq]; [done |]. rewrite <- Heq in Hne. by simpl in Hne.
Qed.

Lemma maxZ_foldl l : forall a,
  (foldl Z.max a l = a \/ foldl Z.max a l ∈ l) /\
  a <= foldl Z.max a l /\ (forall c, c ∈ l -> c <= foldl Z.max a l).
Proof.
  induction l as [| c l IH]; intros a; simpl.
  - split; [by left |]. split; [lia |]. intros c Hc. by apply elem_of_nil in Hc.
  - destruct (IH (Z.max a c)) as (Hin & Hge & Hall). split; [| split].
    + destruct Hin as [-> | Hin]; [| right; by right].
      destruct (Z.max_spec a c) as [[_ ->] | [_ ->]]; [right; left | by left].
    + lia.
    + intros d [-> | Hd]%elem_of_cons; [lia | auto].
Qed.

Lemma minZ_foldl l : forall a,
  (foldl Z.min a l = a \/ foldl Z.min a l ∈ l) /\
  foldl Z.min a l <= a /\ (forall c, c ∈ l -> foldl Z.min a l <= c).
Proof.
  induction l as [| c l IH]; intros a; simpl.
  - split; [by left |]. split; [lia |]. intros c Hc. by apply elem_of_nil in Hc.
  - destruct (IH (Z.min a c)) as (Hin & Hge & Hall). split; [| split].
    + destruct Hin as [-> | Hin]; [| right; by right].
      destruct (Z.min_spec a c) as [[_ ->] | [_ ->]]; [by left | right; left].
    + lia.
    + intros d [-> | Hd]%elem_of_cons; [lia | auto].
Qed.

(** An element of the list that bounds all the others is the maximum. *)
Lemma maxZ_unique l m : m ∈ l -> (forall c, c ∈ l -> c <= m) -> maxZ l = m.
Proof.
  destruct l as [| a l]; [by intros ?%elem_of_nil |]. intros Hin Hub. unfold maxZ.
  destruct (maxZ_foldl l a) as (Hmem & Hge & Hall).
  assert (foldl Z.max a l ∈ a :: l) by (destruct Hmem as [-> | ?]; [left | by right]).
  assert (m <= foldl Z.max a l).
  { apply elem_of_cons in Hin as [-> | Hin]; auto. }
  pose proof (Hub _ H). lia.
Qed.

Lemma minZ_unique l m : m ∈ l -> (forall c, c ∈ l -> m <= c) -> minZ l = m.
Proof.
  destruct l as [| a l]; [by intros ?%elem_of_nil |]. intros Hin Hlb. unfold minZ.
  destruct (minZ_foldl l a) as (Hmem & Hle & Hall).
  assert (foldl Z.min a l ∈ a :: l) by (destruct Hmem as [-> | ?]; [left | by right]).
  assert (foldl Z.min a l <= m).
  { apply elem_of_cons in Hin as [-> | Hin]; auto. }
  pose proof (Hlb _ H). lia.
Qed.

(** When no edge wraps, a negative intersection test means that the
    half-open rectangles have no point in common. *)
Lemma doRectanglesIntersect_false_disjoint a b :
  edgesFit a -> edgesFit b ->
  doRectanglesIntersect a b = false -> ~ overlapHalfOpen a b.
Proof.
  intros [Hax Hay] [Hbx Hby]. unfold doRectanglesIntersect, overlapHalfOpen, sharePoint.
  unfold Int64.inRange in *. rewrite !Int64Facts.add_exact by done.
  destruct (Z.leb_spec (x b + width b) (x a)), (Z.leb_spec (x a + width a) (x b)),
           (Z.leb_spec (y b + height b) (y a)), (Z.leb_spec (y a + height a) (y b));
    simpl; try discriminate; intros _ [[px ?] [py ?]]; lia.
Qed.

Section Layout.

Variable sortSlice : (Z -> Z -> bool) -> list Z -> list Z.
Variables rangeX rangeY : MapOrder.
Hypothesis sortSlice_permutes : sortPermutes sortSlice.
Hypothesis rangeX_valid : validOrder rangeX.
Hypothesis rangeY_valid : validOrder rangeY.

(** The main loop ends, with one placement for each sorted position, in
    that order. *)
Lemma layout_wellPlaced p :
  exists placements,
    layout sortSlice rangeX rangeY p = Some placements /\
    map position placements = sortSlice (areaGreater p) (initialPositions (Len p)) /\
    wellPlaced p placements.
Proof.
  destruct (Pack_loop_wellPlaced rangeX rangeY rangeX_valid rangeY_valid p
              (sortSlice (areaGreater p) (initialPositions (Len p))) []
              (wellPlaced_nil p)) as (ps & Hloop & Hpos & Hw).
  exists ps. done.
Qed.

Lemma layout_withinBudget p placements :
  fitsInt64 p ->
  layout sortSlice rangeX rangeY p = Some placements ->
  withinBudget placements.
Proof.
  intros (Hnn & Hw & Hh) Hl.
  pose proof (sortSlice_permutes (areaGreater p) (initialPositions (Len p))) as Hperm.
  apply (Pack_loop_budget rangeX rangeY rangeX_valid rangeY_valid p
           (sortSlice (areaGreater p) (initialPositions (Len p))) [] placements).
  - apply withinBudget_nil.
  - intros n Hn. apply Hnn. rewrite Hperm in Hn. by apply elem_of_initialPositions.
  - change (sumZ (map width [])) with 0.
    rewrite (sumZ_Permutation _ _ (Permutation_map _ Hperm)). exact Hw.
  - change (sumZ (map height [])) with 0.
    rewrite (sumZ_Permutation _ _ (Permutation_map _ Hperm)). exact Hh.
  - exact Hl.
Qed.

(** For a non-empty collection [Pack] returns, and what it returns is
    read off the layout and its tight bounds. *)
Lemma Pack_returns p :
  0 < Len p ->
  exists placements b,
    layout sortSlice rangeX rangeY p = Some placements /\
    map position placements = sortSlice (areaGreater p) (initialPositions (Len p)) /\
    wellPlaced p placements /\
    computeBounds placements = Some b /\
    tightBounds placements b /\
    Pack sortSlice rangeX rangeY p =
      Some (sub64 (maxX b) (minX b), sub64 (maxY b) (minY b), placeAll b placements).
Proof.
  intros Hlen.
  destruct (layout_wellPlaced p) as (ps & Hl & Hpos & Hw).
  assert (Hne : ps <> []).
  { intros ->. apply (f_equal length) in Hpos. simpl in Hpos.
    rewrite (Permutation_length (sortSlice_permutes _ _)), length_initialPositions in Hpos.
    lia. }
  destruct (computeBounds_tight ps Hne) as (b & Hb & Ht).
  exists ps, b. repeat (split; [done |]).
  unfold Pack. destruct (Z.eqb_spec (Len p) 0); [lia |].
  destruct (Z.ltb_spec (Len p) 0); [lia |].
  rewrite Hl. simpl. rewrite Hb. reflexivity.
Qed.

(** [Place] is called once for every placement, in the order of the
    layout, so once for each index. *)
Lemma placeAll_indices b placements : map placeN (placeAll b placements) = map position placements.
Proof. unfold placeAll. rewrite map_map. reflexivity. Qed.

(** Within the budget the tight bounds start at the origin, nothing is
    shifted, and no edge wraps. *)
Lemma budget_bounds p placements b :
  wellPlaced p placements -> withinBudget placements -> tightBounds placements b ->
  minX b = 0 /\ minY b = 0 /\
  placeAll b placements = map (fun q => mkPlace (position q) (x q) (y q)) placements /\
  sub64 (maxX b) (minX b) = maxX b /\ sub64 (maxY b) (minY b) = maxY b /\
  (forall q, q ∈ placements -> x q + width q <= maxX b /\ y q + height q <= maxY b) /\
  (exists q, q ∈ placements /\ maxX b = x q + width q) /\
  (exists q, q ∈ placements /\ maxY b = y q + height q).
Proof.
  intros [Hd Ho Hz] [He Hsw Hsh] Ht.
  assert (Hfit : forall q, q ∈ placements ->
            add64 (x q) (width q) = x q + width q /\
            add64 (y q) (height q) = y q + height q).
  { intros q Hq. pose proof (He q Hq). unfold Int64.MaxInt64 in *.
    split; apply Int64Facts.add_exact; unfold Int64.MinInt64, Int64.MaxInt64; lia. }
  destruct (tight_minX_at _ _ Ht) as (qx & Hqx & Ex).
  destruct (tight_minY_at _ _ Ht) as (qy & Hqy & Ey).
  destruct placements as [| q0 rest]; [by apply elem_of_nil in Hqx |].
  destruct (Hz q0 eq_refl) as [Hx0 Hy0].
  pose proof (tight_minX _ _ Ht q0 ltac:(left)) as Hmx.
  pose proof (tight_minY _ _ Ht q0 ltac:(left)) as Hmy.
  pose proof (He qx Hqx) as Hbx. pose proof (He qy Hqy) as Hby.
  assert (Hminx : minX b = 0) by lia. assert (Hminy : minY b = 0) by lia.
  destruct (tight_maxX_at _ _ Ht) as (rx & Hrx & Erx).
  destruct (tight_maxY_at _ _ Ht) as (ry & Hry & Ery).
  rewrite (proj1 (Hfit rx Hrx)) in Erx. rewrite (proj2 (Hfit ry Hry)) in Ery.
  pose proof (He rx Hrx) as Hcx. pose proof (He ry Hry) as Hcy.
  unfold Int64.MaxInt64 in *.
  split; [done |]. split; [done |]. split.
  { unfold placeAll. apply map_ext_in. intros q Hq%list_elem_of_In.
    pose proof (He q Hq). rewrite Hminx, Hminy.
    rewrite !Int64Facts.sub_exact by (unfold Int64.MinInt64, Int64.MaxInt64; lia).
    f_equal; lia. }
  rewrite Hminx, Hminy.
  split; [rewrite Int64Facts.sub_exact; unfold Int64.MinInt64, Int64.MaxInt64; lia |].
  split; [rewrite Int64Facts.sub_exact; unfold Int64.MinInt64, Int64.MaxInt64; lia |].
  split; [| split; eauto].
  intros q Hq. destruct (Hfit q Hq) as [Efx Efy].
  pose proof (tight_maxX _ _ Ht q Hq). pose proof (tight_maxY _ _ Ht q Hq). lia.
Qed.

End Layout.

(** ** Insertion sort meets the contract of [sort.Slice] *)

Lemma sinkLeft_Permutation less a l : sinkLeft less a l ≡ₚ a :: l.
Proof.
  induction l as [| b rest IH]; simpl; [done |].
  destruct (less a b); [| done].
  rewrite IH. apply Permutation_swap.
Qed.

Lemma insertionSort_permutes : sortPermutes insertionSort.
Proof.
  intros less l. unfold insertionSort. rewrite reverse_Permutation.
  assert (Hgen : forall acc,
            foldl (fun sortedRev a => sinkLeft less a sortedRev) acc l ≡ₚ acc ++ l).
  { induction l as [| a l IH]; intros acc; simpl; [by rewrite app_nil_r |].
    rewrite IH, sinkLeft_Permutation. simpl. apply Permutation_middle. }
  apply (Hgen []).
Qed.

Lemma sinkLeft_sorted less a l :
  strictWeakOrder less ->
  StronglySorted (fun u v => less u v = false) l ->
  StronglySorted (fun u v => less u v = false) (sinkLeft less a l).
Proof.
  intros Hswo. induction l as [| b rest IH]; intros Hs; simpl.
  - repeat constructor.
  - apply StronglySorted_cons in Hs as [Hb Hrest].
    destruct (less a b) eqn:Hab.
    + apply StronglySorted_cons. split; [| by apply IH].
      rewrite sinkLeft_Permutation. constructor; [| done].
      destruct (less b a) eqn:Hba; [| done].
      pose proof (swo_trans less Hswo a b a Hab Hba) as Haa.
      by rewrite (swo_irrefl less Hswo a) in Haa.
    + apply StronglySorted_cons. split; [| by apply StronglySorted_cons].
      constructor; [done |].
      eapply Forall_impl; [exact Hb |]. intros v Hv. simpl in Hv.
      by apply (swo_incomp less Hswo a b v).
Qed.

Lemma StronglySorted_lookup {A} (R : A -> A -> Prop) l :
  StronglySorted R l ->
  forall i j u v, (i < j)%nat -> l !! i = Some u -> l !! j = Some v -> R u v.
Proof.
  induction 1 as [| h t Hs IH Hall]; intros i j u v Hij Hi Hj.
  - by rewrite lookup_nil in Hi.
  - destruct j as [| j]; [lia |]. simpl in Hj. destruct i as [| i]; simpl in Hi.
    + injection Hi as <-. rewrite Forall_forall in Hall.
      apply Hall. by eapply list_elem_of_lookup_2.
    + apply (IH i j); [lia | done | done].
Qed.

Lemma insertionSort_sorts : sortSorts insertionSort.
Proof.
  intros less l Hswo. unfold insertionSort.
  assert (Hgen : forall acc,
            StronglySorted (fun u v => less u v = false) acc ->
            StronglySorted (fun u v => less u v = false)
              (foldl (fun sortedRev a => sinkLeft less a sortedRev) acc l)).
  { induction l as [| a l IH]; intros acc Hacc; simpl; [done |].
    apply IH. by apply sinkLeft_sorted. }
  specialize (Hgen [] ltac:(constructor)).
  set (acc := foldl (fun sortedRev a => sinkLeft less a sortedRev) [] l) in *.
  intros i j a b Hij Hi Hj.
  apply reverse_lookup_Some in Hi as [Hi Hil].
  apply reverse_lookup_Some in Hj as [Hj Hjl].
  apply (StronglySorted_lookup _ acc Hgen (length acc - S j) (length acc - S i) b a);
    [lia | done | done].
Qed.

(** ** What [Pack] returns and records *)

Section PackFacts.

Variable sortSlice : (Z -> Z -> bool) -> list Z -> list Z.
Variables rangeX rangeY : MapOrder.
Hypothesis sortSlice_permutes : sortPermutes sortSlice.
Hypothesis rangeX_valid : validOrder rangeX.
Hypothesis rangeY_valid : validOrder rangeY.

(** The run of [Pack] on a collection within the budget: nothing wraps,
    nothing is shifted, and the returned pair is the far corner of the
    tight bounds. *)
Lemma Pack_within_budget p :
  0 < Len p -> fitsInt64 p ->
  exists placements b,
    Pack sortSlice rangeX rangeY p =
      Some (maxX b, maxY b,
            map (fun q => mkPlace (position q) (x q) (y q)) placements) /\
    map position placements ≡ₚ initialPositions (Len p) /\
    wellPlaced p placements /\ withinBudget placements /\
    (forall q, q ∈ placements -> x q + width q <= maxX b /\ y q + height q <= maxY b) /\
    (exists q, q ∈ placements /\ maxX b = x q + width q) /\
    (exists q, q ∈ placements /\ maxY b = y q + height q).
Proof.
  intros Hlen Hfit.
  destruct (Pack_returns sortSlice rangeX rangeY sortSlice_permutes rangeX_valid
              rangeY_valid p Hlen) as (ps & b & Hl & Hpos & Hw & Hb & Ht & HP).
  pose proof (layout_withinBudget sortSlice rangeX rangeY sortSlice_permutes
                rangeX_valid rangeY_valid p ps Hfit Hl) as Hbud.
  destruct (budget_bounds p ps b Hw Hbud Ht)
    as (_ & _ & Hcalls & Hrx & Hry & Hall & Hex & Hey).
  exists ps, b. rewrite HP, Hrx, Hry, Hcalls. split; [done |].
  split; [rewrite Hpos; apply sortSlice_permutes |]. done.
Qed.

End PackFacts.

Lemma withinBudget_edgesFit placements q :
  withinBudget placements -> q ∈ placements -> edgesFit q.
Proof.
  intros [He Hsw Hsh] Hq. pose proof (He q Hq).
  unfold edgesFit, Int64.inRange, Int64.MinInt64, Int64.MaxInt64 in *. lia.
Qed.

Lemma elem_of_recorded placements n xy :
  mkPlace n xy.1 xy.2 ∈ map (fun q => mkPlace (position q) (x q) (y q)) placements <->
  exists q, q ∈ placements /\ position q = n /\ x q = xy.1 /\ y q = xy.2.
Proof.
  rewrite list_elem_of_In, in_map_iff. split.
  - intros (q & [= ? ? ?] & Hq%list_elem_of_In). eauto.
  - intros (q & Hq%list_elem_of_In & <- & <- & <-). eauto.
Qed.

Lemma map_lookup {A B} (f : A -> B) (l : list A) i :
  map f l !! i = f <$> (l !! i).
Proof. revert i. induction l as [| a l IH]; intros [| i]; simpl; auto. Qed.

(** ** C4: the empty collection *)

(** C4.  When [Len()] is zero, [Pack] returns [(0, 0)] and never calls
    [Place]. *)
Theorem Pack_empty (sortSlice : (Z -> Z -> bool) -> list Z -> list Z)
    (rangeX rangeY : MapOrder) (p : Packable) :
  Len p = 0 ->
  Pack sortSlice rangeX rangeY p = Some (0, 0, []).
Proof. intros Hlen. unfold Pack. by rewrite Hlen. Qed.

Lemma Pack_empty_witness :
  Pack insertionSort rangeForward rangeForward (packableOf []) = Some (0, 0, []).
Proof.
  apply (Pack_empty insertionSort rangeForward rangeForward (packableOf [])).
  reflexivity.
Defined.

(** ** C2: one call of [Place] for each index *)

(** C2, as amended.  For every non-empty collection [Pack] returns after
    having called [Place] exactly once for each index of
    [0 .. count-1]; when the dimensions are non-negative and the sum of
    the widths and the sum of the heights do not exceed [math.MaxInt64],
    every recorded coordinate is non-negative. *)
Theorem Pack_places_each_index_once (sortSlice : (Z -> Z -> bool) -> list Z -> list Z)
    (rangeX rangeY : MapOrder) (p : Packable) :
  sortPermutes sortSlice -> validOrder rangeX -> validOrder rangeY ->
  0 < Len p ->
  exists w h calls,
    Pack sortSlice rangeX rangeY p = Some (w, h, calls) /\
    map placeN calls ≡ₚ initialPositions (Len p) /\
    (fitsInt64 p -> forall c, c ∈ calls -> 0 <= placeX c /\ 0 <= placeY c).
Proof.
  intros Hsort HvX HvY Hlen.
  destruct (Pack_returns sortSlice rangeX rangeY Hsort HvX HvY p Hlen)
    as (ps & b & Hl & Hpos & Hw & Hb & Ht & HP).
  eexists _, _, _. split; [exact HP |]. split.
  { rewrite placeAll_indices, Hpos. apply Hsort. }
  intros Hfit c Hc.
  destruct (Pack_within_budget sortSlice rangeX rangeY Hsort HvX HvY p Hlen Hfit)
    as (ps' & b' & HP' & _ & _ & [He _ _] & _).
  rewrite HP in HP'. injection HP' as _ _ Hcalls. rewrite Hcalls in Hc.
  apply list_elem_of_In, in_map_iff in Hc as (q & <- & Hq%list_elem_of_In).
  simpl. pose proof (He q Hq). lia.
Qed.

(** ** C1: no two recorded rectangles overlap *)

(** C1, as amended.  For every collection of rectangles with
    non-negative dimensions whose widths and whose heights add up to at
    most [math.MaxInt64], every index has a recorded position once [Pack]
    has returned, and for two distinct indices the recorded rectangles do
    not intersect: [doRectanglesIntersect] is false on them and their
    half-open rectangles have no point in common. *)
Theorem Pack_no_overlap (sortSlice : (Z -> Z -> bool) -> list Z -> list Z)
    (rangeX rangeY : MapOrder) (p : Packable) :
  sortPermutes sortSlice -> validOrder rangeX -> validOrder rangeY ->
  0 <= Len p -> fitsInt64 p ->
  exists w h calls,
    Pack sortSlice rangeX rangeY p = Some (w, h, calls) /\
    (forall n, 0 <= n < Len p -> is_Some (Locations calls !! n)) /\
    (forall i j xyi xyj,
        i <> j ->
        Locations calls !! i = Some xyi -> Locations calls !! j = Some xyj ->
        doRectanglesIntersect (placedAt p i xyi) (placedAt p j xyj) = false /\
        ~ overlapHalfOpen (placedAt p i xyi) (placedAt p j xyj)).
Proof.
  intros Hsort HvX HvY Hlen0 Hfit.
  destruct (decide (Len p = 0)) as [Hz0 | Hnz].
  { exists 0, 0, []. split; [unfold Pack; by rewrite Hz0 |].
    split; [intros n Hn; lia |].
    intros i j xyi xyj _ Hi. unfold Locations in Hi. simpl in Hi.
    by rewrite lookup_empty in Hi. }
  assert (Hlen : 0 < Len p) by lia.
  destruct (Pack_within_budget sortSlice rangeX rangeY Hsort HvX HvY p Hlen Hfit)
    as (ps & b & HP & Hperm & [Hd Ho Hz] & Hbud & _).
  eexists _, _, _. split; [exact HP |].
  assert (Hnd : NoDup (map placeN (map (fun q => mkPlace (position q) (x q) (y q)) ps))).
  { rewrite map_map. simpl. rewrite Hperm. apply NoDup_initialPositions. }
  assert (Hrec : forall n xy,
            Locations (map (fun q => mkPlace (position q) (x q) (y q)) ps) !! n = Some xy ->
            exists q, q ∈ ps /\ placedAt p n xy = q).
  { intros n xy Hn. apply (Locations_lookup _ Hnd), elem_of_recorded in Hn
      as (q & Hq & Hpq & Hxq & Hyq).
    exists q. split; [done |]. destruct (Hd q Hq) as [Hwq Hhq].
    unfold placedAt. rewrite <- Hpq, <- Hxq, <- Hyq, <- Hwq, <- Hhq. by destruct q. }
  split.
  - intros n Hn. apply elem_of_initialPositions in Hn. rewrite <- Hperm in Hn.
    apply list_elem_of_In, in_map_iff in Hn as (q & Hpq & Hq%list_elem_of_In).
    exists (x q, y q). apply (Locations_lookup _ Hnd), elem_of_recorded. eauto.
  - intros i j xyi xyj Hij Hi Hj.
    destruct (Hrec i xyi Hi) as (qi & Hqi & Ei).
    destruct (Hrec j xyj Hj) as (qj & Hqj & Ej).
    rewrite Ei, Ej.
    assert (Hne : qi <> qj).
    { intros Heq. apply Hij. rewrite <- Ei, <- Ej in Heq. by injection Heq. }
    assert (Ht : doRectanglesIntersect qi qj = false).
    { apply list_elem_of_lookup in Hqi as [ki Hki].
      apply list_elem_of_lookup in Hqj as [kj Hkj].
      apply (Ho ki kj); [| done | done]. intros ->. congruence. }
    split; [done |].
    apply doRectanglesIntersect_false_disjoint; [| | done];
      by eapply withinBudget_edgesFit.
Qed.

(** ** C3: the returned pair is the tight bounding box *)

(** C3, as amended.  For every non-empty collection of rectangles with
    non-negative dimensions whose widths and whose heights add up to at
    most [math.MaxInt64], the returned width is the largest
    [x_i + width_i] minus the least [x_i] of the recorded placements,
    the least recorded [x_i] is zero, so the width is the largest
    [x_i + width_i]; and likewise for the height. *)
Theorem Pack_returns_tight_box (sortSlice : (Z -> Z -> bool) -> list Z -> list Z)
    (rangeX rangeY : MapOrder) (p : Packable) :
  sortPermutes sortSlice -> validOrder rangeX -> validOrder rangeY ->
  0 < Len p -> fitsInt64 p ->
  exists w h calls,
    Pack sortSlice rangeX rangeY p = Some (w, h, calls) /\
    w = tightWidth p calls /\ h = tightHeight p calls /\
    minZ (map placeX calls) = 0 /\ minZ (map placeY calls) = 0 /\
    w = maxZ (rightEdges p calls) /\ h = maxZ (bottomEdges p calls).
Proof.
  intros Hsort HvX HvY Hlen Hfit.
  destruct (Pack_within_budget sortSlice rangeX rangeY Hsort HvX HvY p Hlen Hfit)
    as (ps & b & HP & Hperm & [Hd Ho Hz] & [He _ _] & Hall & (rx & Hrx & Erx) & (ry & Hry & Ery)).
  eexists _, _, _. split; [exact HP |].
  assert (Hne : ps <> []) by (intros ->; by apply elem_of_nil in Hrx).
  destruct ps as [| q0 rest] eqn:Hps; [done |]. rewrite <- Hps in *.
  destruct (Hz q0) as [Hx0 Hy0]; [by rewrite Hps |].
  assert (Hq0 : q0 ∈ ps) by (rewrite Hps; left).
  assert (Hminx : minZ (map placeX (map (fun q => mkPlace (position q) (x q) (y q)) ps)) = 0).
  { rewrite map_map. simpl. apply minZ_unique.
    - rewrite <- Hx0. apply list_elem_of_In, in_map_iff. exists q0.
      split; [done | by apply list_elem_of_In].
    - intros c (q & <- & Hq%list_elem_of_In)%list_elem_of_In%in_map_iff.
      pose proof (He q Hq). lia. }
  assert (Hminy : minZ (map placeY (map (fun q => mkPlace (position q) (x q) (y q)) ps)) = 0).
  { rewrite map_map. simpl. apply minZ_unique.
    - rewrite <- Hy0. apply list_elem_of_In, in_map_iff. exists q0.
      split; [done | by apply list_elem_of_In].
    - intros c (q & <- & Hq%list_elem_of_In)%list_elem_of_In%in_map_iff.
      pose proof (He q Hq). lia. }
  assert (Hmaxx : maxZ (rightEdges p (map (fun q => mkPlace (position q) (x q) (y q)) ps))
                  = maxX b).
  { unfold rightEdges. rewrite map_map. simpl. apply maxZ_unique.
    - apply list_elem_of_In, in_map_iff. exists rx.
      split; [| by apply list_elem_of_In]. destruct (Hd rx Hrx) as [<- _]. lia.
    - intros c (q & <- & Hq%list_elem_of_In)%list_elem_of_In%in_map_iff.
      destruct (Hd q Hq) as [<- _]. by apply Hall. }
  assert (Hmaxy : maxZ (bottomEdges p (map (fun q => mkPlace (position q) (x q) (y q)) ps))
                  = maxY b).
  { unfold bottomEdges. rewrite map_map. simpl. apply maxZ_unique.
    - apply list_elem_of_In, in_map_iff. exists ry.
      split; [| by apply list_elem_of_In]. destruct (Hd ry Hry) as [_ <-]. lia.
    - intros c (q & <- & Hq%list_elem_of_In)%list_elem_of_In%in_map_iff.
      destruct (Hd q Hq) as [_ <-]. by apply Hall. }
  unfold tightWidth, tightHeight. rewrite Hminx, Hminy, Hmaxx, Hmaxy.
  repeat split; lia.
Qed.

(** ** C5: largest area first *)


(** ** The enumeration order of the candidate maps *)

Lemma scoreLeb_true s t : scoreLeb s t = true <-> scoreLe s t.
Proof. unfold scoreLeb, scoreLe. lia. Qed.

(** The surviving candidates are the same whatever the enumeration. *)
Lemma elem_of_survivors_range (rangeX rangeY : MapOrder) r placements c :
  validOrder rangeX -> validOrder rangeY ->
  c ∈ survivors r placements
        (candidatePairs (getCandidatePositions rangeX rangeY placements).1
                        (getCandidatePositions rangeX rangeY placements).2) <->
  c ∈ survivors r placements
        (candidatePairs (elements (xKeys placements)) (elements (yKeys placements))).
Proof.
  intros HvX HvY. destruct c as [cx cy].
  rewrite !elem_of_survivors, !elem_of_candidatePairs. simpl.
  rewrite !elem_of_range by done. by rewrite !elem_of_elements.
Qed.

(** The first best candidate of any enumeration is among the least
    survivors. *)
Lemma firstBest_leastSurvivors (rangeX rangeY : MapOrder) b r placements c :
  validOrder rangeX -> validOrder rangeY ->
  firstBest b r
    (survivors r placements
       (candidatePairs (getCandidatePositions rangeX rangeY placements).1
                       (getCandidatePositions rangeX rangeY placements).2)) c ->
  c ∈ leastSurvivors b r placements.
Proof.
  intros HvX HvY Hfb. unfold leastSurvivors.
  apply list_elem_of_In, List.filter_In. split.
  - apply list_elem_of_In, (elem_of_survivors_range rangeX rangeY); [done | done |].
    by eapply firstBest_elem.
  - unfold isLeast. apply forallb_forall. intros c' Hc'%list_elem_of_In.
    apply scoreLeb_true. eapply firstBest_least; [exact Hfb |].
    by apply (elem_of_survivors_range rangeX rangeY).
Qed.

(** When one survivor only has the least score, every enumeration makes
    the same choice. *)
Lemma choosePosition_any_order (rangeX rangeY rangeX' rangeY' : MapOrder) b r placements :
  validOrder rangeX -> validOrder rangeY ->
  validOrder rangeX' -> validOrder rangeY' ->
  tightBounds placements b ->
  uniqueLeast b r placements = true ->
  choosePosition (getCandidatePositions rangeX rangeY placements).1
    (getCandidatePositions rangeX rangeY placements).2 b r placements =
  choosePosition (getCandidatePositions rangeX' rangeY' placements).1
    (getCandidatePositions rangeX' rangeY' placements).2 b r placements.
Proof.
  intros HvX HvY HvX' HvY' Ht Hu.
  destruct (choosePosition_found rangeX rangeY HvX HvY placements b r Ht)
    as (bx & by_ & _ & -> & Hfb).
  destruct (choosePosition_found rangeX' rangeY' HvX' HvY' placements b r Ht)
    as (bx' & by' & _ & -> & Hfb').
  apply (firstBest_leastSurvivors rangeX rangeY) in Hfb; [| done | done].
  apply (firstBest_leastSurvivors rangeX' rangeY') in Hfb'; [| done | done].
  unfold uniqueLeast in Hu.
  destruct (leastSurvivors b r placements) as [| u [| v rest]]; try discriminate.
  apply list_elem_of_singleton in Hfb, Hfb'. congruence.
Qed.

Lemma Pack_step_any_order (rangeX rangeY : MapOrder) p placements pos :
  validOrder rangeX -> validOrder rangeY ->
  match computeBounds placements with
  | None => true
  | Some b => uniqueLeast b (RectangleAt p pos) placements
  end = true ->
  Pack_step rangeX rangeY p placements pos =
  Pack_step rangeForward rangeForward p placements pos.
Proof.
  intros HvX HvY Hu.
  destruct (computeBounds placements) as [b |] eqn:Hb.
  - rewrite (Pack_step_cons rangeX rangeY p placements pos b Hb).
    rewrite (Pack_step_cons rangeForward rangeForward p placements pos b Hb).
    rewrite (choosePosition_any_order rangeX rangeY rangeForward rangeForward b
               (RectangleAt p pos) placements);
      auto using rangeForward_valid, computeBounds_Some_tight.
  - destruct placements; [reflexivity | discriminate].
Qed.

Lemma Pack_loop_any_order (rangeX rangeY : MapOrder) p positions : forall placements,
  validOrder rangeX -> validOrder rangeY ->
  uniqueLeastLoop p placements positions = true ->
  Pack_loop rangeX rangeY p placements positions =
  Pack_loop rangeForward rangeForward p placements positions.
Proof.
  induction positions as [| pos rest IH]; intros placements HvX HvY Hu; simpl; [done |].
  simpl in Hu. apply andb_true_iff in Hu as [Hstep Hrest].
  rewrite (Pack_step_any_order rangeX rangeY p placements pos HvX HvY Hstep).
  destruct (Pack_step rangeForward rangeForward p placements pos) as [ps1 |];
    [| discriminate]. simpl. by apply IH.
Qed.

(** On a collection that is packed without ties, every enumeration of
    the candidate maps gives the result of the enumeration in the order
    of [elements]. *)
Lemma Pack_any_order (sortSlice : (Z -> Z -> bool) -> list Z -> list Z)
    (rangeX rangeY : MapOrder) p :
  validOrder rangeX -> validOrder rangeY ->
  uniqueLeastRun sortSlice p = true ->
  Pack sortSlice rangeX rangeY p = Pack sortSlice rangeForward rangeForward p.
Proof.
  intros HvX HvY Hu. unfold Pack, layout.
  by rewrite (Pack_loop_any_order rangeX rangeY p _ [] HvX HvY Hu).
Qed.

(** Enumerations that agree give the same run. *)
Lemma Pack_loop_ext (rangeX rangeY rangeX' rangeY' : MapOrder) p positions :
  (forall n s, rangeX n s = rangeX' n s) -> (forall n s, rangeY n s = rangeY' n s) ->
  forall placements,
    Pack_loop rangeX rangeY p placements positions =
    Pack_loop rangeX' rangeY' p placements positions.
Proof.
  intros HX HY. induction positions as [| pos rest IH]; intros placements; simpl; [done |].
  assert (Hstep : Pack_step rangeX rangeY p placements pos =
                  Pack_step rangeX' rangeY' p placements pos).
  { unfold Pack_step, getCandidatePositions. by rewrite HX, HY. }
  rewrite Hstep. destruct (Pack_step rangeX' rangeY' p placements pos); simpl; auto.
Qed.

Lemma Pack_ext (sortSlice : (Z -> Z -> bool) -> list Z -> list Z)
    (rangeX rangeY rangeX' rangeY' : MapOrder) p :
  (forall n s, rangeX n s = rangeX' n s) -> (forall n s, rangeY n s = rangeY' n s) ->
  Pack sortSlice rangeX rangeY p = Pack sortSlice rangeX' rangeY' p.
Proof.
  intros HX HY. unfold Pack, layout.
  by rewrite (Pack_loop_ext rangeX rangeY rangeX' rangeY' p _ HX HY).
Qed.

(** The run on [overflowInput] has no tie: whatever the order in which
    the candidate maps are enumerated, [Pack] returns [(-2, 5)] after the
    calls [overflowCalls]. *)
Lemma Pack_overflowInput_any_order (rangeX rangeY : MapOrder) :
  validOrder rangeX -> validOrder rangeY ->
  Pack insertionSort rangeX rangeY overflowInput = Some (-2, 5, overflowCalls).
Proof.
  intros HvX HvY. rewrite (Pack_any_order insertionSort rangeX rangeY overflowInput HvX HvY).
  - vm_compute. reflexivity.
  - vm_compute. reflexivity.
Qed.

(** ** C9: determinism *)

(** C9, as amended.  Two runs of [Pack] on the same collection, with the
    same sort, return the same pair and make the same calls of [Place]
    when they enumerate the candidate maps in the same order, and also,
    whatever the two orders, when at every turn of the main loop only one
    surviving candidate has the least score. *)
Theorem Pack_deterministic_up_to_order
    (sortSlice : (Z -> Z -> bool) -> list Z -> list Z)
    (rangeX rangeY rangeX' rangeY' : MapOrder) (p : Packable) :
  validOrder rangeX -> validOrder rangeY ->
  validOrder rangeX' -> validOrder rangeY' ->
  ((forall n s, rangeX n s = rangeX' n s) /\ (forall n s, rangeY n s = rangeY' n s)) \/
  uniqueLeastRun sortSlice p = true ->
  Pack sortSlice rangeX rangeY p = Pack sortSlice rangeX' rangeY' p.
Proof.
  intros HvX HvY HvX' HvY' [[HX HY] | Hu].
  - by apply Pack_ext.
  - rewrite (Pack_any_order sortSlice rangeX rangeY p HvX HvY Hu).
    by rewrite (Pack_any_order sortSlice rangeX' rangeY' p HvX' HvY' Hu).
Qed.

Lemma Pack_deterministic_up_to_order_witness :
  Pack insertionSort rangeForward rangeBackward fiveRectangles =
  Pack insertionSort rangeBackward rangeForward fiveRectangles.
Proof.
  apply (Pack_deterministic_up_to_order insertionSort
           rangeForward rangeBackward rangeBackward rangeForward fiveRectangles).
  - apply rangeForward_valid.
  - apply rangeBackward_valid.
  - apply rangeBackward_valid.
  - apply rangeForward_valid.
  - right. vm_compute. reflexivity.
Defined.

(** C9 as stated fails.  On two equal squares the two candidates beside
    and below the first square have the same score, and the one that the
    loops meet first wins: enumerating the x-coordinates in one order or
    the other, both of which Go may do, gives two different results. *)
Lemma Pack_depends_on_map_order :
  validOrder rangeForward /\ validOrder rangeBackward /\
  Pack insertionSort rangeForward rangeForward twoSquares =
    Some (20, 10, [mkPlace 0 0 0; mkPlace 1 10 0]) /\
  Pack insertionSort rangeBackward rangeForward twoSquares =
    Some (10, 20, [mkPlace 0 0 0; mkPlace 1 0 10]) /\
  Pack insertionSort rangeForward rangeForward twoSquares <>
  Pack insertionSort rangeBackward rangeForward twoSquares.
Proof.
  split; [apply rangeForward_valid |]. split; [apply rangeBackward_valid |].
  assert (H1 : Pack insertionSort rangeForward rangeForward twoSquares =
               Some (20, 10, [mkPlace 0 0 0; mkPlace 1 10 0])) by (vm_compute; reflexivity).
  assert (H2 : Pack insertionSort rangeBackward rangeForward twoSquares =
               Some (10, 20, [mkPlace 0 0 0; mkPlace 1 0 10])) by (vm_compute; reflexivity).
  split; [done |]. split; [done |]. rewrite H1, H2. discriminate.
Qed.

(** ** The properties on the inputs of the test suite, and past the budget *)

(** [TestPack_SingleRectangle] and the layout of
    [TestPack_MultipleRectangles]. *)
Example Pack_single_rectangle :
  Pack insertionSort rangeForward rangeForward (packableOf [mkRectangle 100 200]) =
  Some (100, 200, [mkPlace 0 0 0]).
Proof. vm_compute. reflexivity. Qed.

Example Pack_five_rectangles :
  Pack insertionSort rangeForward rangeForward fiveRectangles =
  Some (100, 440,
        [mkPlace 0 0 0; mkPlace 2 0 200; mkPlace 4 0 320; mkPlace 1 0 390;
         mkPlace 3 70 320]).
Proof. vm_compute. reflexivity. Qed.

Lemma fiveRectangles_fits : fitsInt64 fiveRectangles.
Proof.
  split; [| split; vm_compute; discriminate].
  intros n Hn. simpl in Hn.
  assert (Hc : n = 0 \/ n = 1 \/ n = 2 \/ n = 3 \/ n = 4) by lia.
  destruct Hc as [-> | [-> | [-> | [-> | ->]]]]; simpl; lia.
Qed.

Lemma fiveRectangles_nonempty : 0 < Len fiveRectangles.
Proof. reflexivity. Qed.

Lemma fiveRectangles_count : 0 <= Len fiveRectangles.
Proof. discriminate. Qed.

Lemma Pack_places_each_index_once_witness :
  exists w h calls,
    Pack insertionSort rangeForward rangeForward fiveRectangles = Some (w, h, calls) /\
    map placeN calls ≡ₚ initialPositions (Len fiveRectangles) /\
    (forall c, c ∈ calls -> 0 <= placeX c /\ 0 <= placeY c).
Proof.
  destruct (Pack_places_each_index_once insertionSort rangeForward rangeForward
              fiveRectangles insertionSort_permutes rangeForward_valid rangeForward_valid
              fiveRectangles_nonempty) as (w & h & calls & HP & Hperm & Hpos).
  exists w, h, calls. split; [exact HP |]. split; [exact Hperm |].
  exact (Hpos fiveRectangles_fits).
Defined.

Lemma Pack_no_overlap_witness :
  exists w h calls,
    Pack insertionSort rangeForward rangeForward fiveRectangles = Some (w, h, calls) /\
    (forall n, 0 <= n < Len fiveRectangles -> is_Some (Locations calls !! n)) /\
    (forall i j xyi xyj,
        i <> j ->
        Locations calls !! i = Some xyi -> Locations calls !! j = Some xyj ->
        doRectanglesIntersect (placedAt fiveRectangles i xyi)
                              (placedAt fiveRectangles j xyj) = false /\
        ~ overlapHalfOpen (placedAt fiveRectangles i xyi) (placedAt fiveRectangles j xyj)).
Proof.
  exact (Pack_no_overlap insertionSort rangeForward rangeForward fiveRectangles
           insertionSort_permutes rangeForward_valid rangeForward_valid
           fiveRectangles_count fiveRectangles_fits).
Defined.

Lemma Pack_returns_tight_box_witness :
  exists w h calls,
    Pack insertionSort rangeForward rangeForward fiveRectangles = Some (w, h, calls) /\
    w = tightWidth fiveRectangles calls /\ h = tightHeight fiveRectangles calls /\
    minZ (map placeX calls) = 0 /\ minZ (map placeY calls) = 0 /\
    w = maxZ (rightEdges fiveRectangles calls) /\
    h = maxZ (bottomEdges fiveRectangles calls).
Proof.
  exact (Pack_returns_tight_box insertionSort rangeForward rangeForward fiveRectangles
           insertionSort_permutes rangeForward_valid rangeForward_valid
           fiveRectangles_nonempty fiveRectangles_fits).
Defined.



(** C1 as stated fails.  The four rectangles of [overflowInput] have
    positive dimensions and are already in the order of their areas.
    Index 0 goes to [(0, 0)] and index 1 to its right edge,
    [(2^63 - 3, 0)], where the bounding-box area wraps to [-8].  For
    index 2, of width 3, five candidates leave the bounds as they are;
    among them [(2^63 - 3, 1)] has the least centre distance, which wraps
    to [-2^63 + 2].  It lies inside rectangle 1, but its right edge wraps
    to [-2^63], so that [doRectanglesIntersect] finds every left edge at
    or beyond it.  Index 3 goes to [(-2^63, 4)], where the area wraps to
    [-10].  The final shift by [minX = -2^63] records the indices 1 and 2
    at [(-3, 0)] and [(-3, 1)], where nothing wraps any more: they overlap
    in the square [[-3, -2) x [1, 2)]. *)
Lemma Pack_overlap_after_overflow :
  Forall (fun r => 0 < Width r /\ 0 < Height r) overflowRectangles /\
  Pack insertionSort rangeForward rangeForward overflowInput =
    Some (-2, 5, overflowCalls) /\
  Locations overflowCalls !! 1 = Some (-3, 0) /\
  Locations overflowCalls !! 2 = Some (-3, 1) /\
  doRectanglesIntersect (placedAt overflowInput 1 (-3, 0))
                        (placedAt overflowInput 2 (-3, 1)) = true /\
  overlapHalfOpen (placedAt overflowInput 1 (-3, 0)) (placedAt overflowInput 2 (-3, 1)).
Proof.
  split; [repeat constructor |].
  split; [vm_compute; reflexivity |].
  split; [vm_compute; reflexivity |].
  split; [vm_compute; reflexivity |].
  split; [vm_compute; reflexivity |].
  split; [exists (-3) | exists 1]; simpl; lia.
Qed.

(** C2 as stated fails in its second half: on [overflowInput] the
    indices 0, 1 and 2 are recorded at a negative x. *)
Lemma Pack_negative_after_overflow :
  Forall (fun r => 0 < Width r /\ 0 < Height r) overflowRectangles /\
  Pack insertionSort rangeForward rangeForward overflowInput =
    Some (-2, 5, overflowCalls) /\
  mkPlace 1 (-3) 0 ∈ overflowCalls /\
  ~ (forall c, c ∈ overflowCalls -> 0 <= placeX c /\ 0 <= placeY c).
Proof.
  split; [repeat constructor |].
  split; [vm_compute; reflexivity |].
  assert (Hin : mkPlace 1 (-3) 0 ∈ overflowCalls) by (right; left).
  split; [exact Hin |].
  intros Hall. destruct (Hall _ Hin) as [Hx _]. simpl in Hx. lia.
Qed.

(** C3 as stated fails: on [overflowInput] the returned width is [-2],
    the least recorded x is [-2^63] and not zero, and the tight width of
    the recorded placements is [2^63 + 1]. *)
Lemma Pack_not_tight_after_overflow :
  Forall (fun r => 0 < Width r /\ 0 < Height r) overflowRectangles /\
  Pack insertionSort rangeForward rangeForward overflowInput =
    Some (-2, 5, overflowCalls) /\
  tightWidth overflowInput overflowCalls = 9223372036854775809 /\
  minZ (map placeX overflowCalls) = -9223372036854775808 /\
  maxZ (rightEdges overflowInput overflowCalls) = 1 /\
  -2 <> tightWidth overflowInput overflowCalls.
Proof.
  split; [repeat constructor |].
  split; [vm_compute; reflexivity |].
  split; [vm_compute; reflexivity |].
  split; [vm_compute; reflexivity |].
  split; [vm_compute; reflexivity |].
  vm_compute. discriminate.
Qed.

(** * Further properties of the helpers *)

(** ** Bounding boxes *)

Lemma tightBounds_unique L b b' : tightBounds L b -> tightBounds L b' -> b = b'.
Proof.
  intros [H1 H2 H3 H4 (q1 & ? & ?) (q2 & ? & ?) (q3 & ? & ?) (q4 & ? & ?)]
         [G1 G2 G3 G4 (r1 & ? & ?) (r2 & ? & ?) (r3 & ? & ?) (r4 & ? & ?)].
  pose proof (H1 r1 ltac:(done)). pose proof (G1 q1 ltac:(done)).
  pose proof (H2 r2 ltac:(done)). pose proof (G2 q2 ltac:(done)).
  pose proof (H3 r3 ltac:(done)). pose proof (G3 q3 ltac:(done)).
  pose proof (H4 r4 ltac:(done)). pose proof (G4 q4 ltac:(done)).
  destruct b, b'. simpl in *. f_equal; lia.
Qed.

(** X1.  [computeBounds] panics on the empty slice only; on any other slice
    it returns the tight bounding box: no left or top edge is below its
    minimum, no computed right or bottom edge is above its maximum, and
    each of the four is attained by some placement. *)
Theorem computeBounds_spec (placements : list placement) :
  (computeBounds placements = None <-> placements = []) /\
  (forall b, computeBounds placements = Some b -> tightBounds placements b) /\
  (forall b, placements <> [] -> tightBounds placements b ->
             computeBounds placements = Some b).
Proof.
  split; [| split].
  - destruct placements; simpl; split; (done || discriminate).
  - intros b. apply computeBounds_Some_tight.
  - intros b Hne Ht. destruct (computeBounds_tight placements Hne) as (b' & Hb' & Ht').
    by rewrite (tightBounds_unique placements b b' Ht Ht').
Qed.

(** X2.  The bounds depend on which placements the slice holds, not on their
    order nor on repetitions. *)
Theorem computeBounds_same_elements (l1 l2 : list placement) :
  (forall q, q ∈ l1 <-> q ∈ l2) ->
  computeBounds l1 = computeBounds l2.
Proof.
  intros Heq.
  destruct l1 as [| a1 r1].
  { destruct l2 as [| a2 r2]; [done |].
    exfalso. apply (elem_of_nil a2), Heq. left. }
  destruct l2 as [| a2 r2].
  { exfalso. apply (elem_of_nil a1), Heq. left. }
  destruct (computeBounds_tight (a1 :: r1)) as (b1 & -> & Ht1); [done |].
  destruct (computeBounds_tight (a2 :: r2)) as (b2 & -> & Ht2); [done |].
  f_equal. apply (tightBounds_unique (a2 :: r2)); [| done].
  by apply (tightBounds_equiv (a1 :: r1)).
Qed.

Lemma computeBounds_same_elements_witness :
  computeBounds [mkPlacement 0 0 0 10 10; mkPlacement 1 10 0 5 5] =
  computeBounds [mkPlacement 1 10 0 5 5; mkPlacement 0 0 0 10 10; mkPlacement 1 10 0 5 5].
Proof.
  apply (computeBounds_same_elements
           [mkPlacement 0 0 0 10 10; mkPlacement 1 10 0 5 5]
           [mkPlacement 1 10 0 5 5; mkPlacement 0 0 0 10 10; mkPlacement 1 10 0 5 5]).
  intros q. rewrite !elem_of_cons, !elem_of_nil. tauto.
Defined.

(** X3.  [expandBoundsForPlacement] takes the minimum of the left and top
    edges and the maximum of the computed right and bottom edges, so that
    expanding by two placements gives the same bounds in either order and
    expanding twice by the same placement changes nothing more. *)
Theorem expandBoundsForPlacement_min_max (r s : placement) (b : bounds) :
  expandBoundsForPlacement r b =
    mkBounds (Z.min (minX b) (x r)) (Z.min (minY b) (y r))
             (Z.max (maxX b) (add64 (x r) (width r)))
             (Z.max (maxY b) (add64 (y r) (height r))) /\
  expandBoundsForPlacement r (expandBoundsForPlacement s b) =
    expandBoundsForPlacement s (expandBoundsForPlacement r b) /\
  expandBoundsForPlacement r (expandBoundsForPlacement r b) =
    expandBoundsForPlacement r b.
Proof.
  assert (Hmm : forall q c,
    expandBoundsForPlacement q c =
    mkBounds (Z.min (minX c) (x q)) (Z.min (minY c) (y q))
             (Z.max (maxX c) (add64 (x q) (width q)))
             (Z.max (maxY c) (add64 (y q) (height q)))).
  { intros q [mx my Mx My]. unfold expandBoundsForPlacement. simpl.
    destruct (Z.ltb_spec (x q) mx); simpl;
      destruct (Z.ltb_spec (y q) my); simpl;
      destruct (Z.ltb_spec Mx (add64 (x q) (width q))); simpl;
      destruct (Z.ltb_spec My (add64 (y q) (height q))); simpl; f_equal; lia. }
  split; [apply Hmm |]. rewrite !Hmm. simpl. split; f_equal; lia.
Qed.

(** X4.  Appending a placement to a non-empty slice expands its bounds by
    that placement: the box that [findBestPlacement] scores for a
    candidate is the bounding box of the placements with the candidate
    added. *)
Theorem computeBounds_snoc (placements : list placement) (b : bounds) (r : placement) :
  computeBounds placements = Some b ->
  computeBounds (placements ++ [r]) = Some (expandBoundsForPlacement r b).
Proof.
  destruct placements as [| p0 rest]; [discriminate |].
  intros [= <-]. simpl. f_equal.
  change (p0 :: rest ++ [r]) with ((p0 :: rest) ++ [r]).
  by rewrite foldl_app.
Qed.

Lemma computeBounds_snoc_witness :
  computeBounds ([mkPlacement 0 0 0 10 10] ++ [mkPlacement 1 10 0 5 5]) =
  Some (expandBoundsForPlacement (mkPlacement 1 10 0 5 5) (mkBounds 0 0 10 10)).
Proof.
  apply (computeBounds_snoc [mkPlacement 0 0 0 10 10] (mkBounds 0 0 10 10)
           (mkPlacement 1 10 0 5 5)).
  reflexivity.
Defined.

(** ** Intersections *)

(** X5.  [hasIntersection] is true exactly when some placement of the slice
    intersects the candidate, whichever of the two is given first to
    [doRectanglesIntersect]; it is false on the empty slice, and the
    answer does not depend on the [position] of the candidate. *)
Theorem hasIntersection_spec (candidate : placement) (placements : list placement) :
  (hasIntersection candidate placements = true <->
   exists q, q ∈ placements /\ doRectanglesIntersect q candidate = true) /\
  hasIntersection candidate [] = false /\
  (forall n, hasIntersection
               (mkPlacement n (x candidate) (y candidate) (width candidate) (height candidate))
               placements = hasIntersection candidate placements).
Proof.
  split; [| split; [reflexivity |]].
  - rewrite hasIntersection_true. split; intros (q & Hq & Hi); exists q;
      (split; [done |]); by rewrite doRectanglesIntersect_sym.
  - intros n. induction placements as [| q rest IH]; simpl; [done |].
    rewrite IH. reflexivity.
Qed.

(** ** [findBestPlacement] on arbitrary candidate slices *)

(** X6.  [findBestPlacement] reports [found] exactly when some pair of the two
    candidate slices intersects no placement.  The pair it then returns
    is made of an x-candidate and a y-candidate, intersects no placement
    and scores no more than any other surviving pair; when nothing is
    found it returns [(0, 0)]. *)
Theorem findBestPlacement_spec (xCandidates yCandidates : list Z) (b : bounds)
    (r : Rectangle) (placements : list placement) :
  exists bx by_ fnd,
    findBestPlacement xCandidates yCandidates b r placements = (bx, by_, fnd) /\
    (fnd = true <->
     exists cx cy, cx ∈ xCandidates /\ cy ∈ yCandidates /\
                   hasIntersection (candidateAt r cx cy) placements = false) /\
    (fnd = true ->
     bx ∈ xCandidates /\ by_ ∈ yCandidates /\
     hasIntersection (candidateAt r bx by_) placements = false /\
     forall cx cy, cx ∈ xCandidates -> cy ∈ yCandidates ->
       hasIntersection (candidateAt r cx cy) placements = false ->
       scoreLe (score b r (bx, by_)) (score b r (cx, cy))) /\
    (fnd = false -> bx = 0 /\ by_ = 0).
Proof.
  assert (Hsurv : forall cx cy,
            (cx, cy) ∈ survivors r placements (candidatePairs xCandidates yCandidates) <->
            cx ∈ xCandidates /\ cy ∈ yCandidates /\
            hasIntersection (candidateAt r cx cy) placements = false).
  { intros cx cy. rewrite elem_of_survivors, elem_of_candidatePairs.
    unfold survives. simpl. rewrite negb_true_iff. tauto. }
  destruct (survivors r placements (candidatePairs xCandidates yCandidates))
    as [| c0 rest] eqn:Hs.
  - exists 0, 0, false. split; [by apply findBestPlacement_not_found |].
    split; [| split; [discriminate | done]].
    split; [discriminate |]. intros (cx & cy & Hc). apply Hsurv in Hc.
    by apply elem_of_nil in Hc.
  - destruct (findBestPlacement_found xCandidates yCandidates b r placements)
      as (bx & by_ & Hf & Hfb); [by rewrite Hs |].
    rewrite Hs in Hfb. exists bx, by_, true. split; [done |].
    split; [| split; [| discriminate]].
    + split; [intros _ | done]. destruct c0 as [cx cy]. exists cx, cy.
      apply Hsurv. left.
    + intros _. pose proof (firstBest_elem _ _ _ _ Hfb) as Hin.
      apply Hsurv in Hin as (Hx & Hy & Hi). repeat (split; [done |]).
      intros cx cy Hcx Hcy Hci. eapply firstBest_least; [exact Hfb |].
      apply Hsurv. done.
Qed.

(** * Further properties of [Pack] *)



(** X8.  The slice [placements] of the main loop never holds two placements
    that [doRectanglesIntersect] finds intersecting, for every collection
    and also when the arithmetic wraps: an overlap of the recorded
    positions can only come from the final shift. *)
Theorem layout_never_intersects (sortSlice : (Z -> Z -> bool) -> list Z -> list Z)
    (rangeX rangeY : MapOrder) (p : Packable) :
  validOrder rangeX -> validOrder rangeY ->
  exists placements,
    layout sortSlice rangeX rangeY p = Some placements /\
    map position placements = sortSlice (areaGreater p) (initialPositions (Len p)) /\
    (forall i j a b, i <> j ->
       placements !! i = Some a -> placements !! j = Some b ->
       doRectanglesIntersect a b = false).
Proof.
  intros HvX HvY.
  destruct (layout_wellPlaced sortSlice rangeX rangeY HvX HvY p)
    as (ps & Hl & Hpos & [_ Ho _]).
  exists ps. done.
Qed.

Lemma layout_never_intersects_witness :
  exists placements,
    layout insertionSort rangeForward rangeBackward overflowInput = Some placements /\
    map position placements =
      insertionSort (areaGreater overflowInput) (initialPositions (Len overflowInput)) /\
    (forall i j a b, i <> j ->
       placements !! i = Some a -> placements !! j = Some b ->
       doRectanglesIntersect a b = false).
Proof.
  apply (layout_never_intersects insertionSort rangeForward rangeBackward overflowInput).
  - apply rangeForward_valid.
  - apply rangeBackward_valid.
Defined.

(** X9.  A collection of one rectangle, of any representable dimensions, is
    packed as that rectangle: [Pack] returns its width and height and
    records it at [(0, 0)]. *)
Theorem Pack_single (sortSlice : (Z -> Z -> bool) -> list Z -> list Z)
    (rangeX rangeY : MapOrder) (p : Packable) :
  sortPermutes sortSlice ->
  Len p = 1 ->
  Int64.inRange (Width (RectangleAt p 0)) -> Int64.inRange (Height (RectangleAt p 0)) ->
  Pack sortSlice rangeX rangeY p =
  Some (Width (RectangleAt p 0), Height (RectangleAt p 0), [mkPlace 0 0 0]).
Proof.
  intros Hs Hlen Hw Hh. unfold Pack, layout. rewrite Hlen. simpl.
  assert (Hsorted : sortSlice (areaGreater p) (initialPositions 1) = [0]).
  { apply Permutation_singleton_r. apply Hs. }
  rewrite Hsorted. simpl. unfold computeBounds_body. simpl.
  rewrite !Z.ltb_irrefl. simpl.
  unfold Int64.add, Int64.sub. simpl. rewrite !Z.sub_0_r, !Z.add_0_l.
  rewrite (Int64Facts.wrap_small (Width (RectangleAt p 0)) Hw).
  rewrite (Int64Facts.wrap_small (Height (RectangleAt p 0)) Hh).
  rewrite (Int64Facts.wrap_small (Width (RectangleAt p 0)) Hw).
  rewrite (Int64Facts.wrap_small (Height (RectangleAt p 0)) Hh).
  reflexivity.
Qed.

Lemma Pack_single_witness :
  Pack insertionSort rangeForward rangeForward (packableOf [mkRectangle 100 200]) =
  Some (100, 200, [mkPlace 0 0 0]).
Proof.
  apply (Pack_single insertionSort rangeForward rangeForward
           (packableOf [mkRectangle 100 200])).
  - apply insertionSort_permutes.
  - reflexivity.
  - unfold Int64.inRange, Int64.MinInt64, Int64.MaxInt64. simpl. lia.
  - unfold Int64.inRange, Int64.MinInt64, Int64.MaxInt64. simpl. lia.
Defined.

(** What the caller's storage holds after a run within the budget. *)
Lemma Pack_recorded_budget (sortSlice : (Z -> Z -> bool) -> list Z -> list Z)
    (rangeX rangeY : MapOrder) (p : Packable) :
  sortPermutes sortSlice -> validOrder rangeX -> validOrder rangeY ->
  0 < Len p -> fitsInt64 p ->
  exists w h calls,
    Pack sortSlice rangeX rangeY p = Some (w, h, calls) /\
    NoDup (map placeN calls) /\
    map placeN calls ≡ₚ initialPositions (Len p) /\
    w <= totalWidth p /\ h <= totalHeight p /\
    (forall n xy, Locations calls !! n = Some xy ->
       0 <= xy.1 /\ 0 <= xy.2 /\
       xy.1 + Width (RectangleAt p n) <= w /\ xy.2 + Height (RectangleAt p n) <= h) /\
    (forall i j xyi xyj, i <> j ->
       Locations calls !! i = Some xyi -> Locations calls !! j = Some xyj ->
       doRectanglesIntersect (placedAt p i xyi) (placedAt p j xyj) = false).
Proof.
  intros Hsort HvX HvY Hlen Hfit.
  destruct (Pack_within_budget sortSlice rangeX rangeY Hsort HvX HvY p Hlen Hfit)
    as (ps & b & HP & Hperm & [Hd Ho Hz] & [He Hsw Hsh] & Hall
        & (rx & Hrx & Erx) & (ry & Hry & Ery)).
  eexists _, _, _. split; [exact HP |].
  assert (Hidx : map placeN (map (fun q => mkPlace (position q) (x q) (y q)) ps)
                 = map position ps) by (by rewrite map_map).
  assert (Hnd : NoDup (map placeN (map (fun q => mkPlace (position q) (x q) (y q)) ps))).
  { rewrite Hidx, Hperm. apply NoDup_initialPositions. }
  assert (Hsumw : sumZ (map width ps) = totalWidth p).
  { unfold totalWidth. rewrite <- (sumZ_Permutation _ _ (Permutation_map _ Hperm)).
    rewrite map_map. f_equal. apply map_ext_in. intros q Hq%list_elem_of_In.
    by destruct (Hd q Hq). }
  assert (Hsumh : sumZ (map height ps) = totalHeight p).
  { unfold totalHeight. rewrite <- (sumZ_Permutation _ _ (Permutation_map _ Hperm)).
    rewrite map_map. f_equal. apply map_ext_in. intros q Hq%list_elem_of_In.
    by destruct (Hd q Hq). }
  assert (Hrec : forall n xy,
            Locations (map (fun q => mkPlace (position q) (x q) (y q)) ps) !! n = Some xy ->
            exists q, q ∈ ps /\ placedAt p n xy = q).
  { intros n xy Hn. apply (Locations_lookup _ Hnd), elem_of_recorded in Hn
      as (q & Hq & Hpq & Hxq & Hyq).
    exists q. split; [done |]. destruct (Hd q Hq) as [Hwq Hhq].
    unfold placedAt. rewrite <- Hpq, <- Hxq, <- Hyq, <- Hwq, <- Hhq. by destruct q. }
  split; [done |]. split; [by rewrite Hidx |].
  split; [rewrite <- Hsumw, Erx; pose proof (He rx Hrx); lia |].
  split; [rewrite <- Hsumh, Ery; pose proof (He ry Hry); lia |].
  split.
  - intros n xy Hn. destruct (Hrec n xy Hn) as (q & Hq & Eq).
    pose proof (He q Hq) as Hb. pose proof (Hall q Hq) as Ha.
    rewrite <- Eq in Hb, Ha. simpl in Hb, Ha. lia.
  - intros i j xyi xyj Hij Hi Hj.
    destruct (Hrec i xyi Hi) as (qi & Hqi & Ei).
    destruct (Hrec j xyj Hj) as (qj & Hqj & Ej).
    rewrite Ei, Ej.
    apply list_elem_of_lookup in Hqi as [ki Hki].
    apply list_elem_of_lookup in Hqj as [kj Hkj].
    apply (Ho ki kj); [| done | done]. intros ->.
    apply Hij. rewrite Hki in Hkj. injection Hkj as Heq.
    rewrite <- Ei, <- Ej in Heq. by injection Heq.
Qed.

(** X10.  Within the budget every recorded rectangle lies inside the canvas
    [[0, width] x [0, height]] of the returned dimensions, and the canvas
    is no wider than the widths laid side by side and no higher than the
    heights stacked. *)
Theorem Pack_canvas (sortSlice : (Z -> Z -> bool) -> list Z -> list Z)
    (rangeX rangeY : MapOrder) (p : Packable) :
  sortPermutes sortSlice -> validOrder rangeX -> validOrder rangeY ->
  0 < Len p -> fitsInt64 p ->
  exists w h calls,
    Pack sortSlice rangeX rangeY p = Some (w, h, calls) /\
    (forall n, 0 <= n < Len p ->
       exists xy, Locations calls !! n = Some xy /\
         0 <= xy.1 /\ xy.1 + Width (RectangleAt p n) <= w /\
         0 <= xy.2 /\ xy.2 + Height (RectangleAt p n) <= h) /\
    w <= totalWidth p /\ h <= totalHeight p.
Proof.
  intros Hsort HvX HvY Hlen Hfit.
  destruct (Pack_recorded_budget sortSlice rangeX rangeY p Hsort HvX HvY Hlen Hfit)
    as (w & h & calls & HP & Hnd & Hperm & Hw & Hh & Hin & _).
  exists w, h, calls. split; [done |]. split; [| done].
  intros n Hn. apply elem_of_initialPositions in Hn. rewrite <- Hperm in Hn.
  apply list_elem_of_In, in_map_iff in Hn as (c & Hc & Hcin%list_elem_of_In).
  exists (placeX c, placeY c).
  assert (Hl : Locations calls !! n = Some (placeX c, placeY c)).
  { apply (Locations_lookup _ Hnd). simpl. rewrite <- Hc. by destruct c. }
  split; [done |]. destruct (Hin n _ Hl) as (? & ? & ? & ?). simpl in *. done.
Qed.

Lemma Pack_canvas_witness :
  exists w h calls,
    Pack insertionSort rangeForward rangeForward fiveRectangles = Some (w, h, calls) /\
    (forall n, 0 <= n < Len fiveRectangles ->
       exists xy, Locations calls !! n = Some xy /\
         0 <= xy.1 /\ xy.1 + Width (RectangleAt fiveRectangles n) <= w /\
         0 <= xy.2 /\ xy.2 + Height (RectangleAt fiveRectangles n) <= h) /\
    w <= totalWidth fiveRectangles /\ h <= totalHeight fiveRectangles.
Proof.
  exact (Pack_canvas insertionSort rangeForward rangeForward fiveRectangles
           insertionSort_permutes rangeForward_valid rangeForward_valid
           fiveRectangles_nonempty fiveRectangles_fits).
Defined.

(** X11.  Within the budget the index that the sort puts first, whose
    rectangle has the largest [Area()], is recorded at [(0, 0)]. *)
Theorem Pack_largest_at_origin (sortSlice : (Z -> Z -> bool) -> list Z -> list Z)
    (rangeX rangeY : MapOrder) (p : Packable) :
  sortPermutes sortSlice -> sortSorts sortSlice ->
  validOrder rangeX -> validOrder rangeY ->
  0 < Len p -> fitsInt64 p ->
  exists w h calls first,
    Pack sortSlice rangeX rangeY p = Some (w, h, calls) /\
    sortSlice (areaGreater p) (initialPositions (Len p)) !! 0%nat = Some first /\
    0 <= first < Len p /\
    Locations calls !! first = Some (0, 0) /\
    (forall n, 0 <= n < Len p ->
       Area (RectangleAt p n) <= Area (RectangleAt p first)).
Proof.
  intros Hperm Hsorted HvX HvY Hlen Hfit.
  destruct (Pack_returns sortSlice rangeX rangeY Hperm HvX HvY p Hlen)
    as (ps & b & Hl & Hpos & Hw & Hb & Ht & HP).
  pose proof (layout_withinBudget sortSlice rangeX rangeY Hperm HvX HvY p ps Hfit Hl)
    as Hbud.
  destruct (budget_bounds p ps b Hw Hbud Ht) as (_ & _ & Hcalls & _).
  destruct Hw as [Hd Ho Hz].
  pose proof (Hsorted (areaGreater p) (initialPositions (Len p))
                (areaGreater_strictWeakOrder p)) as Hs.
  destruct ps as [| q0 rest] eqn:Hps.
  { destruct (tight_minX_at _ _ Ht) as (q & Hq & _). by apply elem_of_nil in Hq. }
  rewrite <- Hps in *.
  destruct (Hz q0) as [Hx0 Hy0]; [by rewrite Hps |].
  assert (Hfirst : sortSlice (areaGreater p) (initialPositions (Len p)) !! 0%nat
                   = Some (position q0)).
  { rewrite <- Hpos, Hps. reflexivity. }
  assert (Hrange : 0 <= position q0 < Len p).
  { apply elem_of_initialPositions. rewrite <- (Hperm (areaGreater p)).
    by eapply list_elem_of_lookup_2. }
  eexists _, _, _, (position q0). split; [exact HP |]. split; [done |]. split; [done |].
  split.
  - rewrite Hcalls. apply Locations_lookup.
    + assert (Hidx : map placeN (map (fun q => mkPlace (position q) (x q) (y q)) ps)
                     = map position ps) by (by rewrite map_map).
      rewrite Hidx, Hpos, (Hperm (areaGreater p)).
      apply NoDup_initialPositions.
    + apply (proj2 (elem_of_recorded ps (position q0) (0, 0))).
      exists q0. rewrite Hps. split; [left | done].
  - intros n Hn. apply elem_of_initialPositions in Hn.
    rewrite <- (Hperm (areaGreater p)) in Hn.
    apply list_elem_of_lookup in Hn as [k Hk]. destruct k as [| k].
    + rewrite Hfirst in Hk. injection Hk as <-. lia.
    + assert (Hless : areaGreater p n (position q0) = false)
        by (apply (Hs 0%nat (S k)); [lia | done | done]).
      unfold areaGreater in Hless. by apply Z.ltb_ge in Hless.
Qed.

Lemma Pack_largest_at_origin_witness :
  exists w h calls first,
    Pack insertionSort rangeForward rangeForward fiveRectangles = Some (w, h, calls) /\
    insertionSort (areaGreater fiveRectangles) (initialPositions (Len fiveRectangles))
      !! 0%nat = Some first /\
    0 <= first < Len fiveRectangles /\
    Locations calls !! first = Some (0, 0) /\
    (forall n, 0 <= n < Len fiveRectangles ->
       Area (RectangleAt fiveRectangles n) <= Area (RectangleAt fiveRectangles first)).
Proof.
  exact (Pack_largest_at_origin insertionSort rangeForward rangeForward fiveRectangles
           insertionSort_permutes insertionSort_sorts rangeForward_valid rangeForward_valid
           fiveRectangles_nonempty fiveRectangles_fits).
Defined.

(** * The collection of the test suite under [Pack] *)

Lemma map_seq_lookup {A B} (g : nat -> B) (f : A -> B) (l : list A) :
  (forall i a, l !! i = Some a -> g i = f a) ->
  map g (seq 0 (length l)) = map f l.
Proof.
  intros Hg. apply list_eq. intros i. rewrite !map_lookup.
  destruct (l !! i) as [a |] eqn:Hi.
  - rewrite lookup_seq_lt by (by eapply lookup_lt_Some). simpl. f_equal. by apply Hg.
  - rewrite lookup_seq_ge by (by apply lookup_ge_None). reflexivity.
Qed.

Lemma asPackable_RectangleAt tp i r :
  TestPackable.rectangles tp !! i = Some r ->
  RectangleAt (TestPackable.asPackable tp) (Z.of_nat i) = r.
Proof.
  intros Hi. simpl. unfold TestPackable.RectangleAt.
  destruct (Z.ltb_spec (Z.of_nat i) 0); [lia |]. by rewrite Nat2Z.id, Hi.
Qed.

Lemma asPackable_sum (f : Rectangle -> Z) tp :
  sumZ (map (fun n => f (RectangleAt (TestPackable.asPackable tp) n))
            (initialPositions (Len (TestPackable.asPackable tp))))
  = sumZ (map f (TestPackable.rectangles tp)).
Proof.
  unfold initialPositions. simpl Len. unfold TestPackable.Len.
  rewrite Nat2Z.id, map_map. f_equal.
  apply map_seq_lookup. intros i a Hi. by rewrite (asPackable_RectangleAt tp i a Hi).
Qed.

Lemma asPackable_fits tp :
  Forall (fun r => 0 <= Width r /\ 0 <= Height r) (TestPackable.rectangles tp) ->
  sumZ (map Width (TestPackable.rectangles tp)) <= MaxInt64 ->
  sumZ (map Height (TestPackable.rectangles tp)) <= MaxInt64 ->
  fitsInt64 (TestPackable.asPackable tp).
Proof.
  intros Hall Hw Hh. split; [| split].
  - intros n Hn. simpl in Hn. unfold TestPackable.Len in Hn.
    destruct (lookup_lt_is_Some_2 (TestPackable.rectangles tp) (Z.to_nat n)) as [r Hr];
      [lia |].
    replace n with (Z.of_nat (Z.to_nat n)) by lia.
    rewrite (asPackable_RectangleAt tp _ r Hr).
    rewrite Forall_forall in Hall. apply Hall. by eapply list_elem_of_lookup_2.
  - unfold totalWidth. by rewrite (asPackable_sum Width).
  - unfold totalHeight. by rewrite (asPackable_sum Height).
Qed.

Lemma runPlaces_app tp l1 l2 :
  TestPackable.runPlaces tp (l1 ++ l2) =
  TestPackable.runPlaces tp l1 ≫= fun tp' => TestPackable.runPlaces tp' l2.
Proof.
  revert tp. induction l1 as [| c l1 IH]; intros tp; simpl; [done |].
  destruct (TestPackable.Place tp c); simpl; [apply IH | done].
Qed.

(** Calls with indices inside the slice never panic; afterwards each
    slot holds what the last call for it wrote, or what it held. *)
Lemma runPlaces_spec tp calls :
  (forall c, c ∈ calls ->
     0 <= placeN c < Z.of_nat (length (TestPackable.placements tp))) ->
  exists tp',
    TestPackable.runPlaces tp calls = Some tp' /\
    TestPackable.rectangles tp' = TestPackable.rectangles tp /\
    length (TestPackable.placements tp') = length (TestPackable.placements tp) /\
    forall k : nat,
      TestPackable.placements tp' !! k =
      match Locations calls !! Z.of_nat k with
      | Some xy => Some xy
      | None => TestPackable.placements tp !! k
      end.
Proof.
  induction calls as [| c calls IH] using rev_ind; intros Hin.
  - exists tp. repeat (split; [done |]). intros k. unfold Locations. simpl.
    by rewrite lookup_empty.
  - destruct IH as (tp1 & Hrun & Hrect & Hlen & Hlook).
    { intros c' Hc'. apply Hin, elem_of_app. by left. }
    pose proof (Hin c ltac:(apply elem_of_app; right; left)) as Hc.
    rewrite runPlaces_app, Hrun. simpl. unfold TestPackable.Place. rewrite Hlen.
    destruct (Z.leb_spec 0 (placeN c)); [| lia].
    destruct (Z.ltb_spec (placeN c) (Z.of_nat (length (TestPackable.placements tp))));
      [| lia].
    simpl. eexists. split; [reflexivity |]. simpl. split; [done |].
    split; [by rewrite length_insert |].
    intros k. rewrite Locations_snoc.
    destruct (decide (Z.to_nat (placeN c) = k)) as [<- | Hne].
    + rewrite list_lookup_insert_eq by lia.
      rewrite Z2Nat.id by lia. by rewrite lookup_insert_eq.
    + rewrite list_lookup_insert_ne by done.
      rewrite lookup_insert_ne by lia. apply Hlook.
Qed.

(** A run of [Pack] on a collection with a slice of positions as long as
    the slice of rectangles. *)
Lemma TestPackable_Pack_run (sortSlice : (Z -> Z -> bool) -> list Z -> list Z)
    (rangeX rangeY : MapOrder) (tp : TestPackable.testPackable) w h calls :
  length (TestPackable.placements tp) = length (TestPackable.rectangles tp) ->
  Pack sortSlice rangeX rangeY (TestPackable.asPackable tp) = Some (w, h, calls) ->
  NoDup (map placeN calls) ->
  map placeN calls ≡ₚ initialPositions (Len (TestPackable.asPackable tp)) ->
  exists tp',
    TestPackable.Pack sortSlice rangeX rangeY tp = Some (w, h, tp') /\
    TestPackable.rectangles tp' = TestPackable.rectangles tp /\
    length (TestPackable.placements tp') = length (TestPackable.rectangles tp) /\
    forall k : nat, TestPackable.placements tp' !! k = Locations calls !! Z.of_nat k.
Proof.
  intros Hlen HP Hnd Hperm.
  assert (Hidx : forall c, c ∈ calls ->
            0 <= placeN c < Z.of_nat (length (TestPackable.placements tp))).
  { intros c Hc. rewrite Hlen. change (0 <= placeN c < Len (TestPackable.asPackable tp)).
    apply elem_of_initialPositions. rewrite <- Hperm.
    apply list_elem_of_In, in_map. by apply list_elem_of_In. }
  destruct (runPlaces_spec tp calls Hidx) as (tp' & Hrun & Hrect & Hl & Hlook).
  exists tp'. unfold TestPackable.Pack. rewrite HP. simpl. rewrite Hrun. simpl.
  split; [done |]. split; [done |]. split; [by rewrite Hl |].
  intros k. rewrite Hlook.
  destruct (Locations calls !! Z.of_nat k) as [xy |] eqn:Hk; [done |].
  apply lookup_ge_None. rewrite Hlen.
  destruct (decide (k < length (TestPackable.rectangles tp))%nat) as [Hlt | ]; [| lia].
  exfalso.
  assert (Hin : Z.of_nat k ∈ map placeN calls).
  { rewrite Hperm. apply elem_of_initialPositions. simpl. unfold TestPackable.Len. lia. }
  apply list_elem_of_In, in_map_iff in Hin as (c & Hc & Hcin%list_elem_of_In).
  assert (Hsome : Locations calls !! Z.of_nat k = Some (placeX c, placeY c)).
  { apply (Locations_lookup _ Hnd). simpl. rewrite <- Hc. by destruct c. }
  congruence.
Qed.

(** X12.  [Pack] never calls [Place] with an index outside the slice that the
    caller made as long as its rectangles: on such a collection, if it is
    not empty, the run does not panic, leaves the rectangles alone, and
    afterwards every slot of the positions holds what [Place] wrote for
    its index. *)
Theorem TestPackable_Pack_fills_slice (sortSlice : (Z -> Z -> bool) -> list Z -> list Z)
    (rangeX rangeY : MapOrder) (tp : TestPackable.testPackable) :
  sortPermutes sortSlice -> validOrder rangeX -> validOrder rangeY ->
  TestPackable.rectangles tp <> [] ->
  length (TestPackable.placements tp) = length (TestPackable.rectangles tp) ->
  exists w h calls tp',
    Pack sortSlice rangeX rangeY (TestPackable.asPackable tp) = Some (w, h, calls) /\
    TestPackable.Pack sortSlice rangeX rangeY tp = Some (w, h, tp') /\
    TestPackable.rectangles tp' = TestPackable.rectangles tp /\
    length (TestPackable.placements tp') = length (TestPackable.rectangles tp) /\
    (forall k : nat, TestPackable.placements tp' !! k = Locations calls !! Z.of_nat k) /\
    (forall k : nat, (k < length (TestPackable.rectangles tp))%nat ->
       is_Some (TestPackable.placements tp' !! k)).
Proof.
  intros Hsort HvX HvY Hne Hlen.
  assert (Hpos : 0 < Len (TestPackable.asPackable tp)).
  { simpl. unfold TestPackable.Len. destruct (TestPackable.rectangles tp); [done |].
    simpl. lia. }
  destruct (Pack_returns sortSlice rangeX rangeY Hsort HvX HvY _ Hpos)
    as (ps & b & _ & Hp & _ & _ & _ & HP).
  assert (Hperm : map placeN (placeAll b ps) ≡ₚ
                  initialPositions (Len (TestPackable.asPackable tp))).
  { rewrite placeAll_indices, Hp. apply Hsort. }
  assert (Hnd : NoDup (map placeN (placeAll b ps))).
  { rewrite Hperm. apply NoDup_initialPositions. }
  destruct (TestPackable_Pack_run sortSlice rangeX rangeY tp _ _ _ Hlen HP Hnd Hperm)
    as (tp' & Hrun & Hrect & Hl & Hlook).
  eexists _, _, _, tp'. repeat (split; [done |]).
  intros k Hk. apply lookup_lt_is_Some. lia.
Qed.

Lemma TestPackable_Pack_fills_slice_witness :
  exists w h calls tp',
    Pack insertionSort rangeForward rangeForward
      (TestPackable.asPackable (TestPackable.newTestPackable overflowRectangles))
      = Some (w, h, calls) /\
    TestPackable.Pack insertionSort rangeForward rangeForward
      (TestPackable.newTestPackable overflowRectangles) = Some (w, h, tp') /\
    TestPackable.rectangles tp' =
      TestPackable.rectangles (TestPackable.newTestPackable overflowRectangles) /\
    length (TestPackable.placements tp') =
      length (TestPackable.rectangles (TestPackable.newTestPackable overflowRectangles)) /\
    (forall k : nat, TestPackable.placements tp' !! k = Locations calls !! Z.of_nat k) /\
    (forall k : nat,
       (k < length (TestPackable.rectangles
                      (TestPackable.newTestPackable overflowRectangles)))%nat ->
       is_Some (TestPackable.placements tp' !! k)).
Proof.
  apply (TestPackable_Pack_fills_slice insertionSort rangeForward rangeForward
           (TestPackable.newTestPackable overflowRectangles)).
  - apply insertionSort_permutes.
  - apply rangeForward_valid.
  - apply rangeForward_valid.
  - discriminate.
  - reflexivity.
Defined.

(** X13.  The assertions of [TestPack_MultipleRectangles] and
    [TestPack_TenRectangles] hold for every non-empty slice of rectangles
    of positive dimensions within the budget: the returned width and
    height are positive, every recorded coordinate is non-negative, and
    [rectanglesOverlapTest] is false on every two of the rectangles at
    their recorded positions. *)
Theorem TestPackable_assertions (sortSlice : (Z -> Z -> bool) -> list Z -> list Z)
    (rangeX rangeY : MapOrder) (rects : list Rectangle) :
  sortPermutes sortSlice -> validOrder rangeX -> validOrder rangeY ->
  rects <> [] ->
  Forall (fun r => 0 < Width r /\ 0 < Height r) rects ->
  sumZ (map Width rects) <= MaxInt64 -> sumZ (map Height rects) <= MaxInt64 ->
  exists w h tp',
    TestPackable.Pack sortSlice rangeX rangeY (TestPackable.newTestPackable rects)
      = Some (w, h, tp') /\
    0 < w /\ 0 < h /\
    (forall i xy, TestPackable.placements tp' !! i = Some xy -> 0 <= xy.1 /\ 0 <= xy.2) /\
    (forall i j ri rj xyi xyj, (i < j)%nat ->
       rects !! i = Some ri -> rects !! j = Some rj ->
       TestPackable.placements tp' !! i = Some xyi ->
       TestPackable.placements tp' !! j = Some xyj ->
       rectanglesOverlapTest xyi.1 xyi.2 (Width ri) (Height ri)
                             xyj.1 xyj.2 (Width rj) (Height rj) = false).
Proof.
  intros Hsort HvX HvY Hne Hall Hsw Hsh.
  set (tp := TestPackable.newTestPackable rects).
  assert (Hlen : length (TestPackable.placements tp) = length (TestPackable.rectangles tp)).
  { simpl. apply length_replicate. }
  assert (Hpos : 0 < Len (TestPackable.asPackable tp)).
  { simpl. unfold TestPackable.Len. simpl. destruct rects; [done |]. simpl. lia. }
  assert (Hfit : fitsInt64 (TestPackable.asPackable tp)).
  { apply asPackable_fits; [| done | done]. simpl.
    eapply Forall_impl; [exact Hall |]. simpl. intros r. lia. }
  destruct (Pack_recorded_budget sortSlice rangeX rangeY _ Hsort HvX HvY Hpos Hfit)
    as (w & h & calls & HP & Hnd & Hperm & _ & _ & Hin & Hdis).
  destruct (TestPackable_Pack_run sortSlice rangeX rangeY tp _ _ _ Hlen HP Hnd Hperm)
    as (tp' & Hrun & Hrect & Hl & Hlook).
  exists w, h, tp'. split; [exact Hrun |].
  assert (Hfirst : exists r0 xy0, rects !! 0%nat = Some r0 /\
                     TestPackable.placements tp' !! 0%nat = Some xy0).
  { destruct rects as [| r0 rest]; [done |]. exists r0.
    destruct (lookup_lt_is_Some_2 (TestPackable.placements tp') 0) as [xy0 H0];
      [rewrite Hl; simpl; lia |]. eauto. }
  destruct Hfirst as (r0 & xy0 & Hr0 & Hxy0).
  rewrite Forall_forall in Hall.
  split; [| split].
  - rewrite Hlook in Hxy0. destruct (Hin _ _ Hxy0) as (? & ? & Hw0 & _).
    rewrite (asPackable_RectangleAt tp 0 r0 Hr0) in Hw0.
    destruct (Hall r0) as [? ?]; [by eapply list_elem_of_lookup_2 |]. lia.
  - rewrite Hlook in Hxy0. destruct (Hin _ _ Hxy0) as (? & ? & _ & Hh0).
    rewrite (asPackable_RectangleAt tp 0 r0 Hr0) in Hh0.
    destruct (Hall r0) as [? ?]; [by eapply list_elem_of_lookup_2 |]. lia.
  - split.
    + intros i xy Hi. rewrite Hlook in Hi. destruct (Hin _ _ Hi) as (? & ? & _). done.
    + intros i j ri rj xyi xyj Hij Hri Hrj Hi Hj. rewrite Hlook in Hi, Hj.
      assert (Hd : doRectanglesIntersect
                     (placedAt (TestPackable.asPackable tp) (Z.of_nat i) xyi)
                     (placedAt (TestPackable.asPackable tp) (Z.of_nat j) xyj) = false)
        by (apply Hdis; [lia | done | done]).
      unfold placedAt in Hd.
      rewrite (asPackable_RectangleAt tp i ri Hri) in Hd.
      rewrite (asPackable_RectangleAt tp j rj Hrj) in Hd. exact Hd.
Qed.

Lemma TestPackable_assertions_witness :
  exists w h tp',
    TestPackable.Pack insertionSort rangeForward rangeForward
      (TestPackable.newTestPackable
         [mkRectangle 100 200; mkRectangle 50 50; mkRectangle 80 120;
          mkRectangle 30 60; mkRectangle 70 70]) = Some (w, h, tp') /\
    0 < w /\ 0 < h /\
    (forall i xy, TestPackable.placements tp' !! i = Some xy -> 0 <= xy.1 /\ 0 <= xy.2) /\
    (forall i j ri rj xyi xyj, (i < j)%nat ->
       [mkRectangle 100 200; mkRectangle 50 50; mkRectangle 80 120;
        mkRectangle 30 60; mkRectangle 70 70] !! i = Some ri ->
       [mkRectangle 100 200; mkRectangle 50 50; mkRectangle 80 120;
        mkRectangle 30 60; mkRectangle 70 70] !! j = Some rj ->
       TestPackable.placements tp' !! i = Some xyi ->
       TestPackable.placements tp' !! j = Some xyj ->
       rectanglesOverlapTest xyi.1 xyi.2 (Width ri) (Height ri)
                             xyj.1 xyj.2 (Width rj) (Height rj) = false).
Proof.
  apply (TestPackable_assertions insertionSort rangeForward rangeForward
           [mkRectangle 100 200; mkRectangle 50 50; mkRectangle 80 120;
            mkRectangle 30 60; mkRectangle 70 70]).
  - apply insertionSort_permutes.
  - apply rangeForward_valid.
  - apply rangeForward_valid.
  - discriminate.
  - repeat constructor.
  - vm_compute. discriminate.
  - vm_compute. discriminate.
Defined.

(** * Candidate counts and degenerate collections *)

Lemma size_add_two (a b : Z) (s : gset Z) : (size ({[ a ]} ∪ ({[ b ]} ∪ s)) <= 2 + size s)%nat.
Proof.
  rewrite size_union_alt, size_singleton.
  assert (Ha : (size (({[ b ]} ∪ s) ∖ {[ a ]}) <= size ({[ b ]} ∪ s))%nat).
  { apply subseteq_size. apply subseteq_difference_l. reflexivity. }
  assert (Hb : (size ({[ b ]} ∪ s) <= 1 + size s)%nat).
  { rewrite size_union_alt, size_singleton.
    assert (Hc : (size (s ∖ {[ b ]}) <= size s)%nat).
    { apply subseteq_size. apply subseteq_difference_l. reflexivity. }
    lia. }
  lia.
Qed.

Lemma size_xKeys rects : (size (xKeys rects) <= 2 * length rects)%nat.
Proof.
  unfold xKeys.
  assert (Hgen : forall s : gset Z,
    (size (foldl (fun s r => {[ add64 (x r) (width r) ]} ∪ ({[ x r ]} ∪ s)) s rects)
     <= size s + 2 * length rects)%nat).
  { induction rects as [| r rest IH]; intros s; simpl; [lia |].
    etrans; [apply IH |]. pose proof (size_add_two (add64 (x r) (width r)) (x r) s). lia. }
  etrans; [apply Hgen |]. rewrite size_empty. lia.
Qed.

Lemma size_yKeys rects : (size (yKeys rects) <= 2 * length rects)%nat.
Proof.
  unfold yKeys.
  assert (Hgen : forall s : gset Z,
    (size (foldl (fun s r => {[ add64 (y r) (height r) ]} ∪ ({[ y r ]} ∪ s)) s rects)
     <= size s + 2 * length rects)%nat).
  { induction rects as [| r rest IH]; intros s; simpl; [lia |].
    etrans; [apply IH |]. pose proof (size_add_two (add64 (y r) (height r)) (y r) s). lia. }
  etrans; [apply Hgen |]. rewrite size_empty. lia.
Qed.

(** X14.  [getCandidatePositions] returns at most two coordinates for each
    placement on either axis, so [findBestPlacement] meets at most
    [4 * n * n] candidate pairs for [n] placements; both slices are empty
    for no placement and neither is for at least one. *)
Theorem getCandidatePositions_count (rangeX rangeY : MapOrder) (rects : list placement) :
  validOrder rangeX -> validOrder rangeY ->
  (length (getCandidatePositions rangeX rangeY rects).1 <= 2 * length rects)%nat /\
  (length (getCandidatePositions rangeX rangeY rects).2 <= 2 * length rects)%nat /\
  (length (candidatePairs (getCandidatePositions rangeX rangeY rects).1
                          (getCandidatePositions rangeX rangeY rects).2)
   <= 4 * length rects * length rects)%nat /\
  (rects <> [] ->
   (getCandidatePositions rangeX rangeY rects).1 <> [] /\
   (getCandidatePositions rangeX rangeY rects).2 <> []).
Proof.
  intros HvX HvY. simpl.
  assert (Hx : (length (rangeX (length rects) (xKeys rects)) <= 2 * length rects)%nat).
  { rewrite (Permutation_length (HvX _ _)). apply size_xKeys. }
  assert (Hy : (length (rangeY (length rects) (yKeys rects)) <= 2 * length rects)%nat).
  { rewrite (Permutation_length (HvY _ _)). apply size_yKeys. }
  split; [done |]. split; [done |]. split.
  - assert (Hlen : forall xs ys : list Z,
              length (candidatePairs xs ys) = (length xs * length ys)%nat).
    { intros xs ys. unfold candidatePairs. induction xs as [| a xs IH]; simpl; [done |].
      rewrite length_app, length_map, IH. lia. }
    rewrite Hlen. nia.
  - intros Hne. destruct rects as [| q rest]; [done |]. split; intros Hnil.
    + assert (Hin : x q ∈ rangeX (length (q :: rest)) (xKeys (q :: rest))).
      { apply elem_of_range; [done |]. apply elem_of_xKeys. exists q. split; [left | by left]. }
      rewrite Hnil in Hin. by apply elem_of_nil in Hin.
    + assert (Hin : y q ∈ rangeY (length (q :: rest)) (yKeys (q :: rest))).
      { apply elem_of_range; [done |]. apply elem_of_yKeys. exists q. split; [left | by left]. }
      rewrite Hnil in Hin. by apply elem_of_nil in Hin.
Qed.

Lemma getCandidatePositions_count_witness :
  (length (getCandidatePositions rangeForward rangeBackward
             [mkPlacement 0 0 0 10 10; mkPlacement 1 10 0 10 10]).1 <= 2 * 2)%nat /\
  (length (getCandidatePositions rangeForward rangeBackward
             [mkPlacement 0 0 0 10 10; mkPlacement 1 10 0 10 10]).2 <= 2 * 2)%nat /\
  (length (candidatePairs
             (getCandidatePositions rangeForward rangeBackward
                [mkPlacement 0 0 0 10 10; mkPlacement 1 10 0 10 10]).1
             (getCandidatePositions rangeForward rangeBackward
                [mkPlacement 0 0 0 10 10; mkPlacement 1 10 0 10 10]).2)
   <= 4 * 2 * 2)%nat /\
  ([mkPlacement 0 0 0 10 10; mkPlacement 1 10 0 10 10] <> [] ->
   (getCandidatePositions rangeForward rangeBackward
      [mkPlacement 0 0 0 10 10; mkPlacement 1 10 0 10 10]).1 <> [] /\
   (getCandidatePositions rangeForward rangeBackward
      [mkPlacement 0 0 0 10 10; mkPlacement 1 10 0 10 10]).2 <> []).
Proof.
  apply (getCandidatePositions_count rangeForward rangeBackward
           [mkPlacement 0 0 0 10 10; mkPlacement 1 10 0 10 10]).
  - apply rangeForward_valid.
  - apply rangeBackward_valid.
Defined.

Lemma Pack_loop_allAtOrigin (rangeX rangeY : MapOrder) p positions :
  validOrder rangeX -> validOrder rangeY ->
  (forall n, n ∈ positions ->
     Width (RectangleAt p n) = 0 /\ Height (RectangleAt p n) = 0) ->
  forall placements,
    allAtOrigin placements ->
    exists placements',
      Pack_loop rangeX rangeY p placements positions = Some placements' /\
      map position placements' = map position placements ++ positions /\
      allAtOrigin placements'.
Proof.
  intros HvX HvY. induction positions as [| pos rest IH]; intros Hzero placements Hall; simpl.
  - exists placements. by rewrite app_nil_r.
  - destruct (Hzero pos ltac:(left)) as [Hw Hh].
    assert (Hstep : Pack_step rangeX rangeY p placements pos =
                    Some (placements ++ [mkPlacement pos 0 0 0 0])).
    { destruct (decide (placements = [])) as [-> | Hne].
      - simpl. by rewrite Hw, Hh.
      - destruct (Pack_step_next rangeX rangeY HvX HvY p placements pos Hne)
          as (b & bx & by_ & _ & _ & Hs & Hx & Hy & _).
        apply elem_of_xCandidates in Hx as (qx & Hqx & Hbx); [| done].
        apply elem_of_yCandidates in Hy as (qy & Hqy & Hby); [| done].
        destruct (Hall qx Hqx) as (Ex & _ & Ewx & _).
        destruct (Hall qy Hqy) as (_ & Ey & _ & Ehy).
        rewrite Ex, Ewx in Hbx. rewrite Ey, Ehy in Hby.
        change (add64 0 0) with 0 in Hbx, Hby.
        assert (bx = 0) by tauto. assert (by_ = 0) by tauto. subst bx by_.
        by rewrite Hs, Hw, Hh. }
    rewrite Hstep. simpl.
    destruct (IH (fun n Hn => Hzero n ltac:(by right)) (placements ++ [mkPlacement pos 0 0 0 0]))
      as (ps' & Hloop & Hpos & Hall').
    { intros q [Hq | ->%list_elem_of_singleton]%elem_of_app; [by apply Hall | done]. }
    exists ps'. split; [done |]. split; [| done].
    by rewrite Hpos, map_app, <- app_assoc.
Qed.

(** X15.  A non-empty collection of rectangles that all have width and height
    zero is packed at a single point: [Pack] returns [(0, 0)] and
    records every index at [(0, 0)]. *)
Theorem Pack_all_empty_rectangles (sortSlice : (Z -> Z -> bool) -> list Z -> list Z)
    (rangeX rangeY : MapOrder) (p : Packable) :
  sortPermutes sortSlice -> validOrder rangeX -> validOrder rangeY ->
  0 < Len p ->
  (forall n, 0 <= n < Len p ->
     Width (RectangleAt p n) = 0 /\ Height (RectangleAt p n) = 0) ->
  exists calls,
    Pack sortSlice rangeX rangeY p = Some (0, 0, calls) /\
    map placeN calls ≡ₚ initialPositions (Len p) /\
    (forall c, c ∈ calls -> placeX c = 0 /\ placeY c = 0).
Proof.
  intros Hsort HvX HvY Hlen Hzero.
  destruct (Pack_loop_allAtOrigin rangeX rangeY p
              (sortSlice (areaGreater p) (initialPositions (Len p))) HvX HvY)
    with (placements := @nil placement) as (ps & Hloop & Hpos & Hall).
  { intros n Hn. apply Hzero. rewrite (Hsort _ _) in Hn.
    by apply elem_of_initialPositions. }
  { intros q Hq. by apply elem_of_nil in Hq. }
  simpl in Hpos.
  assert (Hne : ps <> []).
  { intros ->. apply (f_equal length) in Hpos. simpl in Hpos.
    rewrite (Permutation_length (Hsort _ _)), length_initialPositions in Hpos. lia. }
  destruct (computeBounds_tight ps Hne) as (b & Hb & Ht).
  destruct (tight_minX_at _ _ Ht) as (q1 & Hq1 & E1).
  destruct (tight_minY_at _ _ Ht) as (q2 & Hq2 & E2).
  destruct (tight_maxX_at _ _ Ht) as (q3 & Hq3 & E3).
  destruct (tight_maxY_at _ _ Ht) as (q4 & Hq4 & E4).
  destruct (Hall q1 Hq1) as (X1 & _). destruct (Hall q2 Hq2) as (_ & Y2 & _).
  destruct (Hall q3 Hq3) as (X3 & _ & W3 & _). destruct (Hall q4 Hq4) as (_ & Y4 & _ & H4).
  rewrite X1 in E1. rewrite Y2 in E2. rewrite X3, W3 in E3. rewrite Y4, H4 in E4.
  change (add64 0 0) with 0 in E3, E4.
  exists (placeAll b ps). split; [| split].
  - unfold Pack, layout. destruct (Z.eqb_spec (Len p) 0); [lia |].
    destruct (Z.ltb_spec (Len p) 0); [lia |].
    rewrite Hloop. simpl. rewrite Hb. simpl. rewrite E1, E2, E3, E4. reflexivity.
  - rewrite placeAll_indices, Hpos. apply Hsort.
  - intros c (q & <- & Hq%list_elem_of_In)%list_elem_of_In%in_map_iff. simpl.
    destruct (Hall q Hq) as (-> & -> & _). by rewrite E1, E2.
Qed.

Lemma Pack_all_empty_rectangles_witness :
  exists calls,
    Pack insertionSort rangeForward rangeForward
      (packableOf [mkRectangle 0 0; mkRectangle 0 0; mkRectangle 0 0]) = Some (0, 0, calls) /\
    map placeN calls ≡ₚ
      initialPositions (Len (packableOf [mkRectangle 0 0; mkRectangle 0 0; mkRectangle 0 0])) /\
    (forall c, c ∈ calls -> placeX c = 0 /\ placeY c = 0).
Proof.
  apply (Pack_all_empty_rectangles insertionSort rangeForward rangeForward
           (packableOf [mkRectangle 0 0; mkRectangle 0 0; mkRectangle 0 0])).
  - apply insertionSort_permutes.
  - apply rangeForward_valid.
  - apply rangeForward_valid.
  - reflexivity.
  - intros n Hn. simpl in Hn.
    assert (Hc : n = 0 \/ n = 1 \/ n = 2) by lia.
    destruct Hc as [-> | [-> | ->]]; split; reflexivity.
Defined.
